(** * torrent-search-engine: the search engine, the provider registry and the
      declarative provider, embedded from the Python sources.

    - [src/torrentsearchengine/searchengine.py]   (TorrentSearchEngine)
    - [src/torrentsearchengine/providermanager.py] (TorrentProviderManager)
    - [src/torrentsearchengine/torrentprovider.py] (TorrentProvider)

    The engine and the registry import [TorrentProvider] from [provider.py]
    and call [provider.search(query, limit, timeout)]; that module is not
    among the sources, and the provider of the engine is kept abstract.
    The class of [torrentprovider.py] is embedded on its own.

    Python values are modelled as the code uses them: [str] as [string],
    [int] as [Z], [None]-able values as [option], a list updated by index
    with stdpp's lookup and insert, exceptions as a sum type, wall-clock
    readings as exact rationals. *)

From Stdlib Require Import ZArith QArith Lia Lqa Permutation Sorted.
From stdpp Require Import base option list strings gmap.

Local Open Scope Z_scope.

(** ** Exceptions *)

(** Modelled from the spec: [exceptions.py] is not among the sources.  The
    classes are the ones the sources name; the spec's error taxonomy makes
    every search-time error of one source an error of that source, so each
    of them is taken to derive from [TorrentProviderError], the class the
    task boundary catches.  The remaining constructors are Python built-ins,
    [queue.Full], the two exception classes of [requests] that [fetch]
    translates, and [re.error]. *)
Inductive exn : Type :=
  | TorrentSearchEngineError
  | TorrentProviderError
  | ValidationError
  | RequestError
  | Timeout
  | ParseError
  | FormatError
  | NotSupportedError
  | QueueFull
  | TypeError
  | ValueError
  | KeyError
  | IndexError
  | UnboundLocalError
  | RequestsTimeout
  | RequestsException
  | ReError.

#[global] Instance exn_eq_dec : EqDecision exn.
Proof. solve_decision. Defined.

(** [isinstance(e, TorrentProviderError)] *)
Definition is_TorrentProviderError (e : exn) : bool :=
  match e with
  | TorrentProviderError | ValidationError | RequestError | Timeout
  | ParseError | FormatError | NotSupportedError => true
  | _ => false
  end.

(** A call either returns a value or raises. *)
Inductive result (A : Type) : Type :=
  | Ok (a : A)
  | Raise (e : exn).
Arguments Ok {A} a.
Arguments Raise {A} e.

Definition bind {A B} (r : result A) (k : A → result B) : result B :=
  match r with
  | Ok a => k a
  | Raise e => Raise e
  end.

Notation "x ←! r ; k" := (bind r (fun x => k))
  (at level 20, r at level 100, k at level 200, right associativity,
   format "x  ←!  r ;  '/' k").
Notation "' p ←! r ; k" := (bind r (fun p => k))
  (at level 20, p pattern, r at level 100, k at level 200,
   right associativity).

(** ** Records *)

(** Modelled from the spec: [torrent.py] is not among the sources.  The
    engine reads [title] and [seeds], the provider reads [info_url]; the
    other fields are the ones the spec's data model lists. *)
Record Torrent : Type := mkTorrent {
  provider : string;
  title : string;
  seeds : Z;
  leeches : Z;
  link : option string;
  info_url : option string
}.

#[global] Instance Torrent_eq_dec : EqDecision Torrent.
Proof. solve_decision. Defined.

(** What a generator does when it is run to its end: the records it
    yields, in order, and how it stops ([None]: it returns; [Some e]: it
    raises [e] after the last yield). *)
Record gen : Type := mkGen {
  yields : list Torrent;
  ending : option exn
}.

(** Modelled from the spec: [provider.py], from which the registry and the
    engine import [TorrentProvider], is not among the sources.  A provider
    object is what the two modules use of it: its [name], its [enabled]
    flag and its generator [search(query, limit, timeout)], which is kept
    abstract. *)
Record Provider : Type := mkProvider {
  name : string;
  enabled : bool;
  search : string → Z → Q → gen
}.

Definition set_enabled (b : bool) (p : Provider) : Provider :=
  mkProvider (name p) b (search p).

(** ** Python dictionaries, in insertion order *)

Section Dict.
Context {V : Type}.

Fixpoint dict_get (d : list (string * V)) (k : string) : option V :=
  match d with
  | [] => None
  | (k', v) :: d' => if String.eqb k k' then Some v else dict_get d' k
  end.

(** [d[k] = v]: an existing key keeps its place, a new one goes last. *)
Fixpoint dict_set (d : list (string * V)) (k : string) (v : V)
    : list (string * V) :=
  match d with
  | [] => [(k, v)]
  | (k', v') :: d' =>
      if String.eqb k k' then (k', v) :: d' else (k', v') :: dict_set d' k v
  end.

(** [del d[k]] *)
Fixpoint dict_del (d : list (string * V)) (k : string)
    : list (string * V) :=
  match d with
  | [] => []
  | (k', v') :: d' =>
      if String.eqb k k' then d' else (k', v') :: dict_del d' k
  end.

Definition dict_contains (d : list (string * V)) (k : string) : bool :=
  match dict_get d k with Some _ => true | None => false end.

Definition dict_values (d : list (string * V)) : list V := map snd d.
End Dict.

(** ** The provider registry (providermanager.py) *)

Module Manager.

(** Providers are objects: the registry holds references, and the caller
    may hold the same references.  [heap] is the store of provider
    objects, [providers] the dictionary [self.providers]. *)
Abbreviation loc := nat.

Record t : Type := mk {
  heap : gmap loc Provider;
  providers : list (string * loc)
}.

(** An argument of [remove], [disable] and [enable]:
    [Union[TorrentProvider, str]]. *)
Inductive arg : Type :=
  | Obj (l : loc)
  | Name (s : string).

Definition get (m : t) (nm : string) : option loc :=
  dict_get (providers m) nm.

Definition get_all (m : t) (enabled_filter : option bool) : list loc :=
  List.filter (fun l =>
                 match enabled_filter, heap m !! l with
                 | None, _ => true
                 | Some b, Some p => Bool.eqb b (enabled p)
                 | Some _, None => false
                 end)
              (dict_values (providers m)).

Definition _add (m : t) (l : loc) : t :=
  match heap m !! l with
  | Some p => mk (heap m) (dict_set (providers m) (name p) l)
  | None => m
  end.

Definition _remove (m : t) (a : arg) : t :=
  let key :=
    match a with
    | Obj l => name <$> (heap m !! l)
    | Name s => Some s
    end in
  match key with
  | Some k =>
      if dict_contains (providers m) k
      then mk (heap m) (dict_del (providers m) k)
      else m
  | None => m
  end.

Definition _set_enabled (b : bool) (m : t) (a : arg) : t :=
  let target :=
    match a with
    | Obj l => Some l
    | Name s => dict_get (providers m) s
    end in
  match target with
  | Some l => mk (alter (set_enabled b) l (heap m)) (providers m)
  | None => m
  end.

Definition _disable : t → arg → t := _set_enabled false.
Definition _enable : t → arg → t := _set_enabled true.

Definition remove (m : t) (args : list arg) : t := foldl _remove m args.
Definition disable (m : t) (args : list arg) : t := foldl _disable m args.
Definition enable (m : t) (args : list arg) : t := foldl _enable m args.

Definition remove_all (m : t) : t := remove m (Obj <$> get_all m None).
Definition disable_all (m : t) : t := disable m (Obj <$> get_all m None).
Definition enable_all (m : t) : t := enable m (Obj <$> get_all m None).

End Manager.

(** ** De-duplication and ranking (searchengine.py) *)

Module Engine.

(** The inner loop of [_filter]: [for idx in range(len(filtered))].  The
    list is read and written by index; a read out of range is Python's
    [IndexError]. *)
Fixpoint _filter_scan (item : Torrent) (idxs : list nat)
    (filtered : list Torrent) (duplicate : bool)
    : result (list Torrent * bool) :=
  match idxs with
  | [] => Ok (filtered, duplicate)
  | idx :: idxs' =>
      match filtered !! idx with
      | None => Raise IndexError
      | Some cur =>
          if String.eqb (title item) (title cur) then
            if seeds cur <? seeds item
            then _filter_scan item idxs' (<[idx := item]> filtered) true
            else _filter_scan item idxs' filtered true
          else _filter_scan item idxs' filtered duplicate
      end
  end.

(** The outer loop of [_filter], [filtered] being the list built so far. *)
Fixpoint _filter_loop (items filtered : list Torrent)
    : result (list Torrent) :=
  match items with
  | [] => Ok filtered
  | item :: items' =>
      '(filtered', duplicate) ←!
        _filter_scan item (seq 0 (length filtered)) filtered false;
      if duplicate
      then _filter_loop items' filtered'
      else _filter_loop items' (filtered' ++ [item])
  end.

Definition _filter (items : list Torrent) : result (list Torrent) :=
  _filter_loop items [].

(** Python's [sorted(items, key=..., reverse=True)] is a stable sort with
    every comparison reversed: an element goes in front of the first
    element whose key is not larger than its own.  Any stable sort gives
    the same list; insertion from the right is the simplest one. *)
Section Sorted.
Context {A : Type} (key : A → Z).

Fixpoint insert_desc (x : A) (l : list A) : list A :=
  match l with
  | [] => [x]
  | y :: l' => if key y <=? key x then x :: l else y :: insert_desc x l'
  end.

Definition sorted_reverse (items : list A) : list A :=
  foldr insert_desc [] items.
End Sorted.

Definition _sort (items : list Torrent) : list Torrent :=
  sorted_reverse seeds items.

(** *** The sink: [queue.Queue(limit)] *)

(** [Queue.full()]: a queue of [maxsize <= 0] is never full. *)
Definition full (maxsize : Z) (q : list Torrent) : bool :=
  (0 <? maxsize) && (maxsize <=? Z.of_nat (length q)).

Definition put_nowait (maxsize : Z) (q : list Torrent) (t : Torrent)
    : result (list Torrent) :=
  if full maxsize q then Raise QueueFull else Ok (q ++ [t]).

(** *** The tasks of [_multithreaded_search] *)

(** What the outside can observe of a search besides its result. *)
Inductive event : Type :=
  | EvPool (max_workers : Z)
  | EvTask (nm : string)
  | EvSearch (nm : string) (query : string) (limit : Z) (timeout : Q).

(** The environment of one call: [os.cpu_count()], the order in which the
    pool's threads take their steps, and the reading
    [time.time() - start_time] each task makes when it starts. *)
Record world : Type := mkWorld {
  cpu_count : option Z;
  schedule : list nat;
  elapsed : nat → Q
}.

Inductive task_state : Type :=
  | Pending (p : Provider)
  | Running (rest : list Torrent) (fin : option exn)
  | Finished (res : option exn).

Record pool : Type := mkPool {
  queue : list Torrent;
  tasks : list task_state;
  log : list event
}.

(** The two [except] clauses of [task]: what they let through. *)
Definition uncaught (e : exn) : option exn :=
  if is_TorrentProviderError e then None
  else if decide (e = QueueFull) then None
  else Some e.

(** The head of [task], up to the creation of the generator.  The
    subtraction and the comparison with [0.01] are those of exact
    numbers, where Python's are those of floats. *)
Definition task_start (p : Provider) (query : string) (limit : Z)
    (timeout elapsed_time : Q) : task_state * list event :=
  let timeout := (timeout - elapsed_time)%Q in
  if Qle_bool timeout (1 # 100) then (Finished None, [EvTask (name p)])
  else
    let g := search p query limit timeout in
    (Running (yields g) (ending g),
     [EvTask (name p); EvSearch (name p) query limit timeout]).

(** One turn of [for torrent in provider.search(...): q.put_nowait(torrent)]. *)
Definition task_resume (maxsize : Z) (rest : list Torrent)
    (fin : option exn) (q : list Torrent) : task_state * list Torrent :=
  match rest with
  | t :: rest' =>
      match put_nowait maxsize q t with
      | Ok q' => (Running rest' fin, q')
      | Raise e => (Finished (uncaught e), q)
      end
  | [] => (Finished (fin ≫= uncaught), q)
  end.

Definition is_running (ts : task_state) : bool :=
  match ts with Running _ _ => true | _ => false end.

Definition is_pending (ts : task_state) : bool :=
  match ts with Pending _ => true | _ => false end.

(** A pool of [n_threads] workers takes the submitted tasks in order, one
    per idle worker. *)
Definition may_start (n_threads : Z) (ts : list task_state) (i : nat)
    : bool :=
  forallb (fun t => negb (is_pending t)) (take i ts)
  && (Z.of_nat (length (List.filter is_running ts)) <? n_threads).

Section Pool.
Context (w : world) (query : string) (limit : Z) (timeout : Q)
        (n_threads : Z).

(** Thread [i] takes one step. *)
Definition step (pl : pool) (i : nat) : pool :=
  match tasks pl !! i with
  | Some (Pending p) =>
      if may_start n_threads (tasks pl) i then
        let '(ts, evs) := task_start p query limit timeout (elapsed w i) in
        mkPool (queue pl) (<[i := ts]> (tasks pl)) (log pl ++ evs)
      else pl
  | Some (Running rest fin) =>
      let '(ts, q) := task_resume limit rest fin (queue pl) in
      mkPool q (<[i := ts]> (tasks pl)) (log pl)
  | _ => pl
  end.

(** Task [i] runs until it is over. *)
Fixpoint consume (rest : list Torrent) (fin : option exn)
    (q : list Torrent) : option exn * list Torrent :=
  match rest with
  | t :: rest' =>
      match put_nowait limit q t with
      | Ok q' => consume rest' fin q'
      | Raise e => (uncaught e, q)
      end
  | [] => (fin ≫= uncaught, q)
  end.

Definition finish (pl : pool) (i : nat) : pool :=
  match tasks pl !! i with
  | Some (Pending p) =>
      let '(ts, evs) := task_start p query limit timeout (elapsed w i) in
      match ts with
      | Running rest fin =>
          let '(res, q) := consume rest fin (queue pl) in
          mkPool q (<[i := Finished res]> (tasks pl)) (log pl ++ evs)
      | _ => mkPool (queue pl) (<[i := ts]> (tasks pl)) (log pl ++ evs)
      end
  | Some (Running rest fin) =>
      let '(res, q) := consume rest fin (queue pl) in
      mkPool q (<[i := Finished res]> (tasks pl)) (log pl)
  | _ => pl
  end.

(** The [with] block: the threads interleave as the schedule says, and the
    block is left when every task is over. *)
Definition run_pool (providers : list Provider) : pool :=
  let pl0 := mkPool [] (Pending <$> providers) [EvPool n_threads] in
  let pl1 := foldl step pl0 (schedule w) in
  foldl finish pl1 (seq 0 (length providers)).

(** [for result in executor.map(task, *args): pass] raises what the first
    failed task, in the order of submission, raised.  (The tasks that
    Python cancels at that moment are run here all the same: the sink is
    dropped with the exception, and the log then shows more than
    happened.) *)
Fixpoint first_failure (ts : list task_state) : option exn :=
  match ts with
  | [] => None
  | Finished (Some e) :: _ => Some e
  | _ :: ts' => first_failure ts'
  end.

Definition _multithreaded_search (providers : list Provider)
    : result (list Torrent) * list event :=
  let pl := run_pool providers in
  match first_failure (tasks pl) with
  | Some e => (Raise e, log pl)
  | None => (Ok (queue pl), log pl)
  end.
End Pool.

(** *** [TorrentSearchEngine.search] *)

Definition get_providers (m : Manager.t) (enabled_filter : option bool)
    : list Provider :=
  omap (fun l => Manager.heap m !! l) (Manager.get_all m enabled_filter).

(** [n_threads] when the caller gave none or less than one. *)
Definition default_threads (w : world) (n_providers : Z) : Z :=
  let cpus :=
    match cpu_count w with
    | Some c => if c =? 0 then 1 else c
    | None => 1
    end in
  let max_threads := cpus * 5 in
  if n_providers <? max_threads then n_providers else max_threads.

Definition search (m : Manager.t) (w : world) (query : string) (limit : Z)
    (timeout : Q) (n_threads : option Z)
    : result (list Torrent) * list event :=
  if String.eqb query "" then (Ok [], [])
  else
    let providers := get_providers m (Some true) in
    let n_providers := Z.of_nat (length providers) in
    if n_providers =? 0 then (Ok [], [])
    else
      let n_threads :=
        match n_threads with
        | None => default_threads w n_providers
        | Some n => if n <? 1 then default_threads w n_providers else n
        end in
      let '(found, evs) :=
        _multithreaded_search w query limit timeout n_threads providers in
      (torrents ←! found;
       torrents ←! _filter torrents;
       Ok (_sort torrents),
       evs).

End Engine.

(** ** The declarative provider (torrentprovider.py) *)

Module TorrentProvider.

(** The provider's configuration, as [__init__] stores it. *)
Record config (Selector : Type) : Type := mkConfig {
  name : string;
  fullname : string;
  url : string;
  headers : option (list (string * string));
  search_path : option string;
  categories : option (list (string * string));
  whitespace_char : option string;
  next_page_selector : Selector;
  items_selector : Selector;
  list_item_selectors : list (string * Selector);
  item_selectors : list (string * Selector);
  enabled : bool
}.
Arguments name {_} _.
Arguments fullname {_} _.
Arguments url {_} _.
Arguments headers {_} _.
Arguments search_path {_} _.
Arguments categories {_} _.
Arguments whitespace_char {_} _.
Arguments next_page_selector {_} _.
Arguments items_selector {_} _.
Arguments list_item_selectors {_} _.
Arguments item_selectors {_} _.
Arguments enabled {_} _.

(** A value in the dictionary that [_get_torrent_data] hands to the
    [Torrent] constructor: the provider object itself, known by its name,
    or what a selector selected. *)
Inductive kwarg : Type :=
  | Self (provider_name : string)
  | Selected (v : option string).

(** What the provider calls and the sources do not define: string
    built-ins, [re.sub(r"\s+", repl, query)], which raises ([re.error],
    [IndexError]) when [repl] is not a well-formed replacement template,
    [utils.urljoin] and [utils.urlfix], [requests.get] followed by
    [raise_for_status] (giving the response's text), the [Scraper] and its
    selections, the [Torrent] constructor, called with the dictionary of
    [_get_torrent_data] as its keyword arguments, and [time.time()], whose
    successive readings are numbered. *)
Record externals (Selector Element : Type) : Type := mkExternals {
  str_strip : string → string;
  re_sub_whitespace : string → string → result string;
  str_format : string → list (string * option string) → result string;
  urljoin : string → string → string;
  urlfix : string → string;
  requests_get :
    string → option (list (string * string)) → option Q → result string;
  Scraper : string → result Element;
  select_elements : Element → Selector → option Z → list Element;
  select_one : Element → Selector → option string;
  select : Element → Selector → list string;
  Torrent_new : list (string * kwarg) → result Torrent;
  time_time : nat → Q
}.
Arguments str_strip {_ _} _.
Arguments re_sub_whitespace {_ _} _.
Arguments str_format {_ _} _.
Arguments urljoin {_ _} _.
Arguments urlfix {_ _} _.
Arguments requests_get {_ _} _.
Arguments Scraper {_ _} _.
Arguments select_elements {_ _} _.
Arguments select_one {_ _} _.
Arguments select {_ _} _.
Arguments Torrent_new {_ _} _.
Arguments time_time {_ _} _.

(** Python's truth value of an optional string. *)
Definition truthy (o : option string) : bool :=
  match o with
  | Some s => negb (String.eqb s "")
  | None => false
  end.

(** A value as it is passed to a call. *)
Inductive pyval : Type :=
  | PNone
  | PStr (s : string).

(** What a generator or a call does that the outside observes. *)
Inductive pevent : Type :=
  | Get (u : string) (hdrs : option (list (string * string)))
        (tmo : option Q)
  | Yield (t : Torrent).

(** How a generator run ends; [OutOfFuel] stands for a run that is not
    over after the given number of pages. *)
Inductive outcome : Type :=
  | Returned
  | Raised (e : exn)
  | OutOfFuel.

(** A field of the details dictionary. *)
Inductive detail : Type :=
  | One (v : option string)
  | Many (vs : list string).

Section Provider.
Context {Selector Element : Type}.
Context (ext : externals Selector Element) (self : config Selector).

(** [_get_category_path].  The statement [category == "all"] under
    [if category is None] is a comparison whose value is dropped. *)
Definition _get_category_path (category : option string)
    : result (option string) :=
  let _ :=
    match category with
    | None => Some (bool_decide (category = Some "all"))
    | Some _ => None
    end in
  match categories self with
  | None | Some [] =>
      if bool_decide (category = Some "all") then Ok None
      else Raise NotSupportedError
  | Some cats =>
      match category with
      | Some c =>
          if dict_contains cats c then Ok (dict_get cats c)
          else Raise NotSupportedError
      | None => Raise NotSupportedError
      end
  end.

(** [try: ... except KeyError: raise FormatError(message)] *)
Definition except_KeyError {A} (r : result A) : result A :=
  match r with
  | Raise KeyError => Raise FormatError
  | _ => r
  end.

(** [_format_search_path].  [path] is a local variable of the function
    that no statement assigns before [path.format(...)] reads it. *)
Definition _format_search_path (query : string) (category : option string)
    : result string :=
  let query := str_strip ext query in
  query ←!
    (if truthy (whitespace_char self)
     then re_sub_whitespace ext (default "" (whitespace_char self)) query
     else Ok query);
  category_path ←! _get_category_path category;
  except_KeyError
    (category_path ←!
       match category_path with
       | Some cp =>
           cp ←! str_format ext cp [("query", Some query)]; Ok (Some cp)
       | None => Ok None
       end;
     path ←! Raise UnboundLocalError;
     str_format ext path
       [("category", category_path); ("query", Some query)]).

(** A call of [self._format_search_path] with positional arguments. *)
Definition call_format_search_path (args : list pyval) : result string :=
  match args with
  | [PStr query; PNone] => _format_search_path query None
  | [PStr query; PStr category] => _format_search_path query (Some category)
  | _ => Raise TypeError
  end.

(** [fetch] *)
Definition fetch (u : string) (hdrs : option (list (string * string)))
    (tmo : option Q) : result string * list pevent :=
  let u := if String.prefix "http" u then u else urljoin ext (url self) u in
  let u := urlfix ext u in
  (match requests_get ext u hdrs tmo with
   | Raise RequestsTimeout => Raise Timeout
   | Raise RequestsException => Raise RequestError
   | r => r
   end,
   [Get u hdrs tmo]).

(** [_get_torrent_data].  The dictionary starts as [{"provider": self}],
    so a selector under the key ["provider"] replaces that entry where it
    stands.  What [props.get('info_url', '')] finds is never the provider
    object, the only entry of that kind being under ["provider"]. *)
Definition _get_torrent_data (element : Element)
    : list (string * kwarg) :=
  let props :=
    foldl (fun props '(key, selector) =>
             dict_set props key (Selected (select_one ext element selector)))
          [("provider", Self (name self))] (list_item_selectors self) in
  let u :=
    match dict_get props "info_url" with
    | Some (Selected v) => v
    | Some (Self _) => None
    | None => Some ""
    end in
  if truthy u && negb (String.prefix "http" (default "" u))
  then dict_set props "info_url"
         (Selected
            (Some (urlfix ext (urljoin ext (url self) (default "" u)))))
  else props.

(** [_get_torrent_details_data] *)
Definition _get_torrent_details_data (element : Element)
    : list (string * detail) :=
  let props :=
    foldl (fun props '(key, selector) =>
             if String.eqb key "files" || String.eqb key "trackers"
             then dict_set props key (Many (select ext element selector))
             else dict_set props key (One (select_one ext element selector)))
          [] (item_selectors self) in
  let u :=
    match dict_get props "uploader_url" with
    | Some (One v) => v
    | _ => None
    end in
  if truthy u && negb (String.prefix "http" (default "" u))
  then dict_set props "uploader_url"
         (One (Some (urlfix ext (urljoin ext (url self) (default "" u)))))
  else props.

(** [fetch_details_data] *)
Definition fetch_details_data (torrent : Torrent) (tmo : option Q)
    : result (list (string * detail)) * list pevent :=
  let path := info_url torrent in
  if negb (truthy path) then (Ok [], [])
  else
    let '(response, evs) := fetch (default "" path) None tmo in
    (text ←! response;
     scraper ←!
       match Scraper ext text with
       | Raise ValueError => Raise ParseError
       | r => r
       end;
     Ok (_get_torrent_details_data scraper),
     evs).

(** The [for item in items] loop of [search]: a record whose construction
    raises [ValueError] is passed over. *)
Fixpoint yield_items (items : list Element) : list pevent * option exn :=
  match items with
  | [] => ([], None)
  | item :: items' =>
      match Torrent_new ext (_get_torrent_data item) with
      | Ok torrent =>
          let '(evs, r) := yield_items items' in (Yield torrent :: evs, r)
      | Raise ValueError => yield_items items'
      | Raise e => ([], Some e)
      end
  end.

(** The guard of the [while]: [path and (not limit or remaining > 0)]. *)
Definition loop_guard (path : option string) (limit remaining : option Z)
    : result bool :=
  if negb (truthy path) then Ok false
  else
    match limit with
    | None | Some 0 => Ok true
    | Some _ =>
        match remaining with
        | Some r => Ok (0 <? r)
        | None => Raise TypeError
        end
    end.

Section Search.
Context (limit : option Z) (timeout : option Q) (start_time : Q).

(** The [while] loop of [search], from the state [path], [remaining];
    [tick] numbers the next reading of the clock. *)
Fixpoint search_loop (fuel : nat) (path : option string)
    (remaining : option Z) (tick : nat) : list pevent * outcome :=
  match fuel with
  | O => ([], OutOfFuel)
  | S fuel' =>
      match loop_guard path limit remaining with
      | Raise e => ([], Raised e)
      | Ok false => ([], Returned)
      | Ok true =>
          let '(current_timeout, tick') :=
            match timeout with
            | Some tmo =>
                (Some (tmo - (time_time ext tick - start_time))%Q, S tick)
            | None => (None, tick)
            end in
          let '(response, evs_fetch) :=
            fetch (default "" path) (headers self) current_timeout in
          match response with
          | Raise e => (evs_fetch, Raised e)
          | Ok text =>
              match Scraper ext text with
              | Raise ValueError => (evs_fetch, Raised ParseError)
              | Raise e => (evs_fetch, Raised e)
              | Ok scraper =>
                  let items :=
                    select_elements ext scraper (items_selector self)
                      remaining in
                  match yield_items items with
                  | (evs_items, Some e) =>
                      (evs_fetch ++ evs_items, Raised e)
                  | (evs_items, None) =>
                      match remaining with
                      | None => (evs_fetch ++ evs_items, Raised TypeError)
                      | Some r =>
                          let remaining' :=
                            Some (r - Z.of_nat (length items)) in
                          let path' :=
                            select_one ext scraper (next_page_selector self)
                          in
                          let '(evs, o) :=
                            search_loop fuel' path' remaining' tick' in
                          (evs_fetch ++ evs_items ++ evs, o)
                      end
                  end
              end
          end
      end
  end.
End Search.

(** [search], run for at most [fuel] pages. *)
Definition search (fuel : nat) (query : string) (category : option string)
    (limit : option Z) (timeout : option Q) : list pevent * outcome :=
  let '(start_time, tick) :=
    match timeout with
    | Some _ => (time_time ext 0, 1%nat)
    | None => (0%Q, 0%nat)
    end in
  let remaining := limit in
  match call_format_search_path [PStr query] with
  | Raise e => ([], Raised e)
  | Ok path => search_loop limit timeout start_time fuel (Some path)
                 remaining tick
  end.

End Provider.
End TorrentProvider.

(** ** Specification-side definitions *)

(** The elements of a list without repeats, each at its first occurrence. *)
Definition first_occurrences (l : list string) : list string :=
  reverse (remove_dups (reverse l)).

(** What the scan of [_filter] does to the list built so far, read off
    element by element. *)
Definition replace_better (item : Torrent) (filtered : list Torrent)
    : list Torrent :=
  (fun cur =>
     if String.eqb (title item) (title cur) && (seeds cur <? seeds item)
     then item else cur) <$> filtered.

Definition has_title (t : string) (filtered : list Torrent) : bool :=
  existsb (fun cur => String.eqb t (title cur)) filtered.

Definition merge_item (filtered : list Torrent) (item : Torrent)
    : list Torrent :=
  if has_title (title item) filtered
  then replace_better item filtered
  else replace_better item filtered ++ [item].

(** The sink holds no more than a positive [limit]. *)
Definition within_limit (limit : Z) (q : list Torrent) : Prop :=
  0 < limit → Z.of_nat (length q) ≤ limit.

(** A provider whose generator returns where it would have raised an
    error that the task boundary catches. *)
Definition quiet (p : Provider) : Provider :=
  mkProvider (name p) (enabled p)
    (fun query limit timeout =>
       let g := search p query limit timeout in
       mkGen (yields g) (ending g ≫= Engine.uncaught)).

Definition quiet_task (ts : Engine.task_state) : Engine.task_state :=
  match ts with
  | Engine.Pending p => Engine.Pending (quiet p)
  | Engine.Running rest fin => Engine.Running rest (fin ≫= Engine.uncaught)
  | Engine.Finished res => Engine.Finished res
  end.

Definition quiet_pool (pl : Engine.pool) : Engine.pool :=
  Engine.mkPool (Engine.queue pl) (quiet_task <$> Engine.tasks pl)
    (Engine.log pl).

Definition quiet_manager (m : Manager.t) : Manager.t :=
  Manager.mk (quiet <$> Manager.heap m) (Manager.providers m).

(** A task that will not make [executor.map] raise. *)
Definition calm (ts : Engine.task_state) : Prop :=
  match ts with
  | Engine.Pending p =>
      ∀ query limit timeout,
        ending (search p query limit timeout) ≫= Engine.uncaught = None
  | Engine.Running _ fin => fin ≫= Engine.uncaught = None
  | Engine.Finished res => res = None
  end.

(** The timeouts of the requests in a trace, in order. *)
Definition request_timeouts (evs : list TorrentProvider.pevent)
    : list (option Q) :=
  omap (fun ev =>
          match ev with
          | TorrentProvider.Get _ _ tmo => Some tmo
          | TorrentProvider.Yield _ => None
          end) evs.

(** The records yielded in a trace, in order. *)
Definition yielded (evs : list TorrentProvider.pevent) : list Torrent :=
  omap (fun ev =>
          match ev with
          | TorrentProvider.Yield t => Some t
          | TorrentProvider.Get _ _ _ => None
          end) evs.

(** The budget handed to the fetch of the iteration that makes reading
    number [tick] of the clock: [timeout - (time.time() - start_time)]. *)
Definition budget {Selector Element : Type}
    (ext : TorrentProvider.externals Selector Element)
    (timeout : option Q) (start_time : Q) (tick : nat) : option Q :=
  match timeout with
  | Some tmo =>
      Some (tmo - (TorrentProvider.time_time ext tick - start_time))%Q
  | None => None
  end.

(** A search of a provider is only started with more than 0.01 s left. *)
Definition started_in_time (ev : Engine.event) : Prop :=
  match ev with
  | Engine.EvSearch _ _ _ tmo => Qle_bool tmo (1 # 100) = false
  | _ => True
  end.

(** ** A small world to run the code in *)

Module Sample.

(** Documents: a listing page with its item nodes and its next-page link,
    or an item node with its fields.  A selector is the name of a field. *)
Inductive node : Type :=
  | Page (items : list (list (string * option string)))
         (next : option string)
  | Item (fields : list (string * option string)).

Definition select_elements (n : node) (sel : string) (limit : option Z)
    : list node :=
  match n, limit with
  | Page items _, Some l =>
      Item <$> (if 0 <? l then take (Z.to_nat l) items else items)
  | Page items _, None => Item <$> items
  | Item _, _ => []
  end.

Definition select_one (n : node) (sel : string) : option string :=
  match n with
  | Page _ next => if String.eqb sel "next" then next else None
  | Item fields => default None (dict_get fields sel)
  end.

(** Modelled from the spec: [torrent.py] is not among the sources.  A
    record needs a title and a magnet link or a details page; without
    them its construction is a [ValueError].  Its provider is the one
    under ["provider"]. *)
Definition Torrent_new (props : list (string * TorrentProvider.kwarg))
    : result Torrent :=
  let field k :=
    match dict_get props k with
    | Some (TorrentProvider.Selected v) => v
    | Some (TorrentProvider.Self nm) => Some nm
    | None => None
    end in
  if TorrentProvider.truthy (field "title")
     && (TorrentProvider.truthy (field "link")
         || TorrentProvider.truthy (field "info_url"))
  then Ok (mkTorrent (default "" (field "provider"))
             (default "" (field "title")) 0 0 (field "link")
             (field "info_url"))
  else Raise ValueError.

(** Two listing pages: the first has a good item, an item without title
    and a link to the second, which has one item and no link. *)
Definition web (u : string) : result string :=
  if String.eqb u "http://tracker.example/search/doom" then Ok "first"
  else if String.eqb u "http://tracker.example/page/2" then Ok "second"
  else Raise RequestsException.

Definition parse (text : string) : result node :=
  if String.eqb text "first" then
    Ok (Page [[("title", Some "Doom Patrol S01");
               ("link", Some "magnet:?xt=1")];
              [("title", None); ("link", Some "magnet:?xt=2")]]
             (Some "/page/2"))
  else if String.eqb text "second" then
    Ok (Page [[("title", Some "Doom Patrol S02");
               ("info_url", Some "/torrent/3")]]
             None)
  else Raise ValueError.

(** [requests.get] refuses a timeout that is not positive. *)
Definition requests_get (u : string) (hdrs : option (list (string * string)))
    (tmo : option Q) : result string :=
  match tmo with
  | Some t => if Qle_bool t 0 then Raise ValueError else web u
  | None => web u
  end.

(** The clock reads 0, 0.995, 1.99, ... seconds. *)
Definition ext : TorrentProvider.externals string node :=
  TorrentProvider.mkExternals string node
    (fun s => s)
    (fun ws s => Ok s)
    (fun s kwargs => Ok s)
    (fun base u => base +:+ u)
    (fun u => u)
    requests_get
    parse
    select_elements
    select_one
    (fun n sel => [])
    Torrent_new
    (fun k => (199 * Z.of_nat k) # 200).

Definition tracker : TorrentProvider.config string :=
  TorrentProvider.mkConfig string
    "tracker" "Tracker" "http://tracker.example" None
    (Some "/search/{query}") None None
    "next" "items" [("title", "title"); ("link", "link");
                    ("info_url", "info_url")]
    [] true.

Definition record (prov ttl : string) (sd : Z) : Torrent :=
  mkTorrent prov ttl sd 0 (Some "magnet:?xt=0") None.

(** A provider whose second page cannot be fetched, and a sound one. *)
Definition flaky : Provider :=
  mkProvider "flaky" true
    (fun _ _ _ => mkGen [record "flaky" "Doom Patrol S01" 7]
                    (Some RequestError)).

Definition steady : Provider :=
  mkProvider "steady" true
    (fun _ _ _ => mkGen [record "steady" "Doom Patrol S02" 3;
                         record "steady" "Doom Patrol S03" 9;
                         record "steady" "Doom Patrol S04" 1]
                    None).

Definition registry : Manager.t :=
  Manager.mk {[ 0%nat := flaky; 1%nat := steady ]}
    [("flaky", 0%nat); ("steady", 1%nat)].

(** One worker after the other, the clock still at the start. *)
Definition w : Engine.world :=
  Engine.mkWorld (Some 4) [] (fun _ => 0%Q).

(** A search of both providers with a limit of two records. *)
Definition limited_out : list Torrent :=
  [record "flaky" "Doom Patrol S01" 7; record "steady" "Doom Patrol S02" 3].

Definition limited_log : list Engine.event :=
  [Engine.EvPool 2;
   Engine.EvTask "flaky"; Engine.EvSearch "flaky" "doom" 2 (30 - 0)%Q;
   Engine.EvTask "steady"; Engine.EvSearch "steady" "doom" 2 (30 - 0)%Q].

(** What a provider of torrentprovider.py does on every call of its
    [search]: it raises [TypeError] before its first page. *)
Definition broken : Provider :=
  mkProvider "tracker" true (fun _ _ _ => mkGen [] (Some TypeError)).

Definition broken_registry : Manager.t :=
  Manager.mk {[ 0%nat := steady; 1%nat := broken ]}
    [("steady", 0%nat); ("tracker", 1%nat)].

End Sample.

(** ** Adding providers (providermanager.py, searchengine.py) *)

Module Loading.

(** What [add] and [add_provider] receive:
    [Union[str, dict, TorrentProvider]]. *)
Inductive source (D : Type) : Type :=
  | Instance (l : nat)
  | Dict (d : D)
  | Str (s : string).
Arguments Instance {D} l.
Arguments Dict {D} d.
Arguments Str {D} s.

(** What ends the body of a [try] here: the failure of something the
    loaders call, or the lookup of an attribute that the object lacks. *)
Inductive failure (E : Type) : Type :=
  | Failed (e : E)
  | AttributeError.
Arguments Failed {E} e.
Arguments AttributeError {E}.

(** What loading calls and the sources do not define: the validator
    followed by the constructor of [WebsiteTorrentProvider], [json.load]
    on the opened file, and [requests.get] with [raise_for_status] and
    [json.loads].  Each returns or fails with an exception of [E]. *)
Record loaders (D E : Type) : Type := mkLoaders {
  build : D → E + Provider;
  load_file : string → E + D;
  load_url : string → E + D
}.
Arguments build {D E} _.
Arguments load_file {D E} _.
Arguments load_url {D E} _.

Section Loading.
Context {D E : Type} (ld : loaders D E).

(** A new object enters the store at a location that is not in use. *)
Definition alloc (m : Manager.t) (p : Provider) : Manager.t * nat :=
  let l := fresh (dom (Manager.heap m)) in
  (Manager.mk (<[l := p]> (Manager.heap m)) (Manager.providers m), l).

Definition _add_from_dict (m : Manager.t) (d : D)
    : failure E + Manager.t :=
  match build ld d with
  | inl e => inl (Failed e)
  | inr p => let '(m', l) := alloc m p in inr (Manager._add m' l)
  end.

Definition _add_from_file (m : Manager.t) (path : string)
    : failure E + Manager.t :=
  match load_file ld path with
  | inl e => inl (Failed e)
  | inr d => _add_from_dict m d
  end.

Definition _add_from_url (m : Manager.t) (u : string)
    : failure E + Manager.t :=
  match load_url ld u with
  | inl e => inl (Failed e)
  | inr d => _add_from_dict m d
  end.

(** [try: ... except Exception as e:
      raise TorrentSearchEngineError(message) from None] *)
Definition wrap {A} (r : failure E + A) : result A :=
  match r with
  | inl _ => Raise TorrentSearchEngineError
  | inr a => Ok a
  end.

(** [TorrentProviderManager.add] *)
Definition add (m : Manager.t) (src : source D) : result Manager.t :=
  match src with
  | Instance l => Ok (Manager._add m l)
  | Dict d => wrap (_add_from_dict m d)
  | Str s =>
      if String.prefix "http" s
      then wrap (_add_from_url m s)
      else wrap (_add_from_file m s)
  end.

(** The methods of [TorrentProviderManager] that load a provider, by
    name.  The class has no other attribute whose name contains
    [from]: its attributes are [providers], [add], [get], [get_all],
    [remove], [remove_all], [disable], [disable_all], [enable],
    [enable_all], [_add], [_remove], [_disable], [_enable] and the
    three below. *)
Definition loader_methods
    : list (string * (Manager.t → D + string → failure E + Manager.t)) :=
  [("_add_from_dict",
    fun m a => match a with
               | inl d => _add_from_dict m d
               | inr s => inl AttributeError
               end);
   ("_add_from_file",
    fun m a => match a with
               | inr s => _add_from_file m s
               | inl d => inl AttributeError
               end);
   ("_add_from_url",
    fun m a => match a with
               | inr s => _add_from_url m s
               | inl d => inl AttributeError
               end)].

(** [self.provider_manager.<attr>(arg)]: an attribute that the object
    lacks is an [AttributeError]. *)
Definition call_loader (attr : string) (m : Manager.t) (a : D + string)
    : failure E + Manager.t :=
  match dict_get loader_methods attr with
  | Some method => method m a
  | None => inl AttributeError
  end.

(** [TorrentSearchEngine.add_provider], on the engine's registry. *)
Definition add_provider (m : Manager.t) (src : source D)
    : result Manager.t :=
  match src with
  | Instance l => add m (Instance l)
  | Dict d => wrap (call_loader "add_from_dict" m (inl d))
  | Str s =>
      if String.prefix "http" s
      then wrap (call_loader "add_from_url" m (inr s))
      else wrap (call_loader "add_from_file" m (inr s))
  end.
End Loading.
End Loading.

(** ** What the provider computes on the way *)

Section ProviderSpec.
Context {Selector Element : Type}.
Context (ext : TorrentProvider.externals Selector Element)
        (self : TorrentProvider.config Selector).

(** The query as [_format_search_path] uses it: stripped, its runs of
    whitespace replaced when the provider has a whitespace character. *)
Definition normalized_query (query : string) : result string :=
  let query := TorrentProvider.str_strip ext query in
  if TorrentProvider.truthy (TorrentProvider.whitespace_char self)
  then TorrentProvider.re_sub_whitespace ext
         (default "" (TorrentProvider.whitespace_char self)) query
  else Ok query.

(** The address that [fetch] requests for [u]. *)
Definition fetch_target (u : string) : string :=
  TorrentProvider.urlfix ext
    (if String.prefix "http" u then u
     else TorrentProvider.urljoin ext (TorrentProvider.url self) u).

(** A link as the field dictionaries carry it: a link that is there and
    does not start with [http] is joined to the provider's address. *)
Definition absolute (v : option string) : option string :=
  if TorrentProvider.truthy v && negb (String.prefix "http" (default "" v))
  then Some (TorrentProvider.urlfix ext
               (TorrentProvider.urljoin ext (TorrentProvider.url self)
                  (default "" v)))
  else v.

(** The field as the loop of [_get_torrent_details_data] stores it. *)
Definition stored_detail (element : Element) (key : string)
    (selector : Selector) : TorrentProvider.detail :=
  if String.eqb key "files" || String.eqb key "trackers"
  then TorrentProvider.Many (TorrentProvider.select ext element selector)
  else TorrentProvider.One
         (TorrentProvider.select_one ext element selector).

(** The field of the details dictionary for a key and its selector. *)
Definition detail_field (element : Element) (key : string)
    (selector : Selector) : TorrentProvider.detail :=
  if String.eqb key "files" || String.eqb key "trackers"
  then TorrentProvider.Many (TorrentProvider.select ext element selector)
  else if String.eqb key "uploader_url"
  then TorrentProvider.One
         (absolute (TorrentProvider.select_one ext element selector))
  else TorrentProvider.One
         (TorrentProvider.select_one ext element selector).

(** [select_elements] returns no more nodes than the limit it is given. *)
Definition selection_is_limited : Prop :=
  ∀ scraper selector r,
    0 < r →
    Z.of_nat (length (TorrentProvider.select_elements ext scraper selector
                        (Some r))) ≤ r.
End ProviderSpec.

(** ** What a search is made of *)

(** A record that one of the providers [ps] yields for this query and
    limit, under some timeout. *)
Definition yielded_by (ps : list Provider) (query : string) (limit : Z)
    (r : Torrent) : Prop :=
  ∃ p tmo, p ∈ ps ∧ r ∈ yields (search p query limit tmo).

Definition task_from (ps : list Provider) (query : string) (limit : Z)
    (ts : Engine.task_state) : Prop :=
  match ts with
  | Engine.Pending p => p ∈ ps
  | Engine.Running rest _ => ∀ r, r ∈ rest → yielded_by ps query limit r
  | Engine.Finished _ => True
  end.

(** An event of a call of [search]: it names one of the providers [ps],
    and a provider's search is given the caller's query and limit and
    the timeout less a reading of the clock. *)
Definition event_of_call (ps : list Provider) (w : Engine.world)
    (query : string) (limit : Z) (timeout : Q) (ev : Engine.event)
    : Prop :=
  match ev with
  | Engine.EvPool _ => True
  | Engine.EvTask nm => ∃ p, p ∈ ps ∧ name p = nm
  | Engine.EvSearch nm q l tmo =>
      q = query ∧ l = limit ∧ (∃ p, p ∈ ps ∧ name p = nm)
      ∧ ∃ i, tmo = (timeout - Engine.elapsed w i)%Q
  end.

(** The pool of a search over [ps]: what is in the sink, what the tasks
    still hold and what the log shows all come from [ps]. *)
Definition pool_from (ps : list Provider) (w : Engine.world)
    (query : string) (limit : Z) (timeout : Q) (pl : Engine.pool)
    : Prop :=
  (∀ r, r ∈ Engine.queue pl → yielded_by ps query limit r)
  ∧ Forall (task_from ps query limit) (Engine.tasks pl)
  ∧ Forall (event_of_call ps w query limit timeout) (Engine.log pl).

(** The pool of a search has at least one worker, and no more workers
    than providers when the caller leaves their number open. *)
Definition pool_size_ok (n_threads : option Z) (n_providers : Z)
    (ev : Engine.event) : Prop :=
  match ev with
  | Engine.EvPool n =>
      1 ≤ n
      ∧ match n_threads with
        | Some g => if g <? 1 then n ≤ n_providers else n = g
        | None => n ≤ n_providers
        end
  | _ => True
  end.

Definition is_provider_search (ev : Engine.event) : bool :=
  match ev with
  | Engine.EvSearch _ _ _ _ => true
  | _ => false
  end.

(** A task that has not searched and will not raise. *)
Definition idle (ts : Engine.task_state) : Prop :=
  match ts with
  | Engine.Pending _ => True
  | Engine.Running _ _ => False
  | Engine.Finished res => res = None
  end.

(** What the provider at place [i] of the pool is asked for: nothing
    when its task finds the timeout spent, and else what its search
    yields under the timeout that is left. *)
Definition asked (w : Engine.world) (query : string) (limit : Z)
    (timeout : Q) (i : nat) (p : Provider) : list Torrent :=
  if Qle_bool (timeout - Engine.elapsed w i) (1 # 100) then []
  else yields (search p query limit (timeout - Engine.elapsed w i)%Q).

(** What the task at place [i] has still to put into the sink. *)
Definition owed (w : Engine.world) (query : string) (limit : Z)
    (timeout : Q) (i : nat) (ts : Engine.task_state) : list Torrent :=
  match ts with
  | Engine.Pending p => asked w query limit timeout i p
  | Engine.Running rest _ => rest
  | Engine.Finished _ => []
  end.

Definition is_finished (ts : Engine.task_state) : Prop :=
  match ts with
  | Engine.Finished _ => True
  | _ => False
  end.

(** ** The registry as the code builds it *)

(** Every entry of [self.providers] stands under the name of its object:
    [_add] is the only writer, and it uses [provider.name] as the key.
    (The keys of a Python dictionary are distinct; the model says so.) *)
Definition registered_by_name (m : Manager.t) : Prop :=
  NoDup (fst <$> Manager.providers m)
  ∧ ∀ k l, (k, l) ∈ Manager.providers m →
      ∃ p, Manager.heap m !! l = Some p ∧ name p = k.

(** The name under which [_remove] looks an argument up. *)
Definition key_of (m : Manager.t) (a : Manager.arg) : option string :=
  match a with
  | Manager.Obj l => name <$> (Manager.heap m !! l)
  | Manager.Name s => Some s
  end.

(** ** More of the small world *)

Module Demo.

(** A search of both providers of [Sample.registry] without limit. *)
Definition unlimited_out : list Torrent :=
  [Sample.record "steady" "Doom Patrol S03" 9;
   Sample.record "flaky" "Doom Patrol S01" 7;
   Sample.record "steady" "Doom Patrol S02" 3;
   Sample.record "steady" "Doom Patrol S04" 1].

Definition unlimited_log : list Engine.event :=
  [Engine.EvPool 2;
   Engine.EvTask "flaky"; Engine.EvSearch "flaky" "doom" 0 (30 - 0)%Q;
   Engine.EvTask "steady"; Engine.EvSearch "steady" "doom" 0 (30 - 0)%Q].

(** A provider with selectors for the details page. *)
Definition detailed : TorrentProvider.config string :=
  TorrentProvider.mkConfig string
    "tracker" "Tracker" "http://tracker.example" None
    (Some "/search/{query}") None None
    "next" "items" [("title", "title"); ("info_url", "info_url")]
    [("description", "description"); ("files", "files");
     ("uploader_url", "uploader_url")]
    true.

(** A record with a details page. *)
Definition linked : Torrent :=
  mkTorrent "tracker" "Doom Patrol S02" 3 0 None (Some "/torrent/3").

(** The second listing page of [Sample.web], parsed. *)
Definition second_page : Sample.node :=
  Sample.Page [[("title", Some "Doom Patrol S02");
                ("info_url", Some "/torrent/3")]]
    None.

Definition second_record : Torrent :=
  mkTorrent "tracker" "Doom Patrol S02" 0 0 None
    (Some "http://tracker.example/torrent/3").

End Demo.

(** * Theorems *)

(** ** De-duplication *)

Lemma filter_scan_spec item post : ∀ pre duplicate,
  Engine._filter_scan item (seq (length pre) (length post)) (pre ++ post)
    duplicate
  = Ok (pre ++ replace_better item post,
        duplicate || has_title (title item) post).
Proof.
  induction post as [|cur post IH]; intros pre duplicate; simpl.
  - by rewrite orb_false_r.
  - rewrite list_lookup_middle by done.
    assert (Hshift : ∀ c d,
      Engine._filter_scan item (seq (S (length pre)) (length post))
        (pre ++ c :: post) d
      = Ok (pre ++ c :: replace_better item post,
            d || has_title (title item) post)).
    { intros c d. specialize (IH (pre ++ [c]) d).
      rewrite length_app, <- !(assoc_L (++)) in IH. simpl in IH.
      by rewrite Nat.add_1_r in IH. }
    destruct (String.eqb (title item) (title cur)) eqn:Ht; simpl.
    + destruct (seeds cur <? seeds item) eqn:Hs.
      * rewrite insert_app_r_alt, Nat.sub_diag by done. simpl.
        rewrite Hshift. by rewrite orb_true_r.
      * rewrite Hshift. by rewrite orb_true_r.
    + apply Hshift.
Qed.

Lemma filter_loop_spec items : ∀ filtered,
  Engine._filter_loop items filtered = Ok (foldl merge_item filtered items).
Proof.
  induction items as [|item items IH]; intros filtered; simpl; [done|].
  pose proof (filter_scan_spec item filtered [] false) as Hscan.
  simpl in Hscan. rewrite Hscan. simpl.
  unfold merge_item at 2.
  destruct (has_title (title item) filtered); apply IH.
Qed.

Example first_occurrences_example :
  first_occurrences ["a"; "b"; "a"; "c"; "b"] = ["a"; "b"; "c"].
Proof. reflexivity. Qed.

Lemma first_occurrences_snoc l t :
  first_occurrences (l ++ [t])
  = if decide (t ∈ l) then first_occurrences l
    else first_occurrences l ++ [t].
Proof.
  unfold first_occurrences. rewrite reverse_snoc. simpl.
  destruct (decide_rel elem_of t (reverse l)) as [Hin|Hin];
    rewrite elem_of_reverse in Hin.
  - by rewrite decide_True.
  - rewrite decide_False by done. by rewrite reverse_cons.
Qed.

Lemma elem_of_first_occurrences l t : t ∈ first_occurrences l ↔ t ∈ l.
Proof.
  unfold first_occurrences.
  by rewrite elem_of_reverse, elem_of_remove_dups, elem_of_reverse.
Qed.

Lemma NoDup_first_occurrences l : NoDup (first_occurrences l).
Proof.
  unfold first_occurrences. rewrite reverse_Permutation.
  apply NoDup_remove_dups.
Qed.

Lemma has_title_spec t filtered :
  has_title t filtered = true ↔ t ∈ title <$> filtered.
Proof.
  unfold has_title. rewrite existsb_exists, list_elem_of_fmap.
  split.
  - intros (cur & Hin & Heq). apply String.eqb_eq in Heq.
    exists cur. split; [done|]. by apply list_elem_of_In.
  - intros (cur & -> & Hin). exists cur.
    rewrite String.eqb_refl. split; [|done]. by apply list_elem_of_In.
Qed.

Lemma replace_better_titles item filtered :
  title <$> replace_better item filtered = title <$> filtered.
Proof.
  unfold replace_better. rewrite <- list_fmap_compose.
  apply list_fmap_ext. intros i cur _. simpl.
  destruct (String.eqb (title item) (title cur)) eqn:Ht; [|done].
  apply String.eqb_eq in Ht. by destruct (seeds cur <? seeds item).
Qed.

Lemma merge_item_titles filtered item :
  title <$> merge_item filtered item
  = if decide (title item ∈ title <$> filtered) then title <$> filtered
    else (title <$> filtered) ++ [title item].
Proof.
  unfold merge_item.
  destruct (has_title (title item) filtered) eqn:Hdup.
  - apply has_title_spec in Hdup.
    by rewrite decide_True, replace_better_titles.
  - rewrite decide_False.
    + by rewrite fmap_app, replace_better_titles.
    + rewrite <- has_title_spec. by rewrite Hdup.
Qed.

Lemma filter_titles items :
  title <$> foldl merge_item [] items = first_occurrences (title <$> items).
Proof.
  induction items as [|item items IH] using rev_ind; [done|].
  rewrite foldl_snoc, merge_item_titles, IH, fmap_app. simpl.
  rewrite first_occurrences_snoc.
  destruct (decide (title item ∈ title <$> items)) as [Hin|Hin].
  - rewrite decide_True; [done|]. by apply elem_of_first_occurrences.
  - rewrite decide_False; [done|]. by rewrite elem_of_first_occurrences.
Qed.

Lemma elem_of_replace_better r item filtered :
  r ∈ replace_better item filtered →
  ∃ cur, cur ∈ filtered ∧
    ((r = item ∧ title item = title cur ∧ seeds cur < seeds item)
     ∨ (r = cur ∧ (title item = title cur → seeds item ≤ seeds cur))).
Proof.
  unfold replace_better. rewrite list_elem_of_fmap.
  intros (cur & -> & Hcur). exists cur. split; [done|].
  destruct (String.eqb (title item) (title cur)) eqn:Ht; simpl.
  - apply String.eqb_eq in Ht.
    destruct (seeds cur <? seeds item) eqn:Hs.
    + left. split_and!; [done|done|lia].
    + right. split; [done|]. intros _. lia.
  - right. split; [done|]. apply String.eqb_neq in Ht. done.
Qed.

(** Every record the scan keeps is a record of the input that no record
    of the input with the same title beats. *)
Lemma filter_best items r :
  r ∈ foldl merge_item [] items →
  r ∈ items ∧ ∀ x, x ∈ items → title x = title r → seeds x ≤ seeds r.
Proof.
  revert r. induction items as [|item items IH] using rev_ind; intros r.
  { simpl. by intros ?%elem_of_nil. }
  rewrite foldl_snoc.
  set (filtered := foldl merge_item [] items) in *.
  assert (Hrepl : r ∈ replace_better item filtered →
    r ∈ items ++ [item] ∧
    ∀ x, x ∈ items ++ [item] → title x = title r → seeds x ≤ seeds r).
  { intros (cur & Hcur & Hcase)%elem_of_replace_better.
    destruct (IH cur Hcur) as [Hin Hmax].
    destruct Hcase as [(-> & Ht & Hs)|(-> & Hs)].
    - split; [apply elem_of_app; right; by apply list_elem_of_singleton|].
      intros x [Hx| ->%list_elem_of_singleton]%elem_of_app Hxt; [|lia].
      specialize (Hmax x Hx). rewrite Hxt, Ht in Hmax.
      specialize (Hmax eq_refl). lia.
    - split; [apply elem_of_app; by left|].
      intros x [Hx| ->%list_elem_of_singleton]%elem_of_app Hxt; eauto. }
  unfold merge_item.
  destruct (has_title (title item) filtered) eqn:Hdup; [done|].
  intros [Hr| ->%list_elem_of_singleton]%elem_of_app; [by apply Hrepl|].
  split; [apply elem_of_app; right; by apply list_elem_of_singleton|].
  intros x [Hx| ->%list_elem_of_singleton]%elem_of_app Hxt; [|lia].
  assert (has_title (title item) filtered = true); [|congruence].
  apply has_title_spec. unfold filtered. rewrite filter_titles.
  apply elem_of_first_occurrences, list_elem_of_fmap. by exists x.
Qed.

(** C3.  [_filter] returns, for every list of records, a list with one
    record for each title of the input (titles compared exactly), the
    titles in the order of their first occurrence in the input; the record
    kept for a title is a record of the input with that title, and no
    record of the input with that title has more seeds.  In particular two
    records with one title and 5 and 9 seeds leave exactly the record with
    9 seeds, in whichever order they come. *)
Theorem filter_keeps_best_of_each_title :
  (∀ items : list Torrent, ∃ out,
      Engine._filter items = Ok out
      ∧ title <$> out = first_occurrences (title <$> items)
      ∧ NoDup (title <$> out)
      ∧ ∀ r, r ∈ out →
          r ∈ items
          ∧ ∀ x, x ∈ items → title x = title r → seeds x ≤ seeds r)
  ∧ (∀ t p1 p2 l1 l2 k1 k2 u1 u2,
       let five := mkTorrent p1 t 5 l1 k1 u1 in
       let nine := mkTorrent p2 t 9 l2 k2 u2 in
       Engine._filter [five; nine] = Ok [nine]
       ∧ Engine._filter [nine; five] = Ok [nine]).
Proof.
  split.
  - intros items. exists (foldl merge_item [] items).
    unfold Engine._filter. rewrite filter_loop_spec.
    split_and!; [done|apply filter_titles| |apply filter_best].
    rewrite filter_titles. apply NoDup_first_occurrences.
  - intros. unfold Engine._filter. simpl.
    rewrite !String.eqb_refl. by simpl.
Qed.

(** ** Ranking *)

Section SortedFacts.
Context {A : Type} (key : A → Z).

Lemma insert_desc_perm x l : Engine.insert_desc key x l ≡ₚ x :: l.
Proof.
  induction l as [|y l IH]; simpl; [done|].
  destruct (key y <=? key x); [done|].
  rewrite IH. apply Permutation_swap.
Qed.

Lemma sorted_reverse_perm l : Engine.sorted_reverse key l ≡ₚ l.
Proof.
  induction l as [|x l IH]; simpl; [done|].
  by rewrite insert_desc_perm, IH.
Qed.

Lemma insert_desc_sorted x l :
  StronglySorted (fun a b => key b ≤ key a) l →
  StronglySorted (fun a b => key b ≤ key a) (Engine.insert_desc key x l).
Proof.
  induction 1 as [|y l Hl IH Hy]; simpl.
  - repeat constructor.
  - destruct (key y <=? key x) eqn:Hle.
    + constructor; [by constructor|].
      constructor; [lia|].
      eapply Forall_impl; [exact Hy|]. simpl. intros. lia.
    + constructor; [done|].
      rewrite insert_desc_perm. constructor; [lia|done].
Qed.

Lemma sorted_reverse_sorted l :
  StronglySorted (fun a b => key b ≤ key a) (Engine.sorted_reverse key l).
Proof.
  induction l as [|x l IH]; simpl; [constructor|].
  by apply insert_desc_sorted.
Qed.

Lemma insert_desc_stable k x l :
  filter (fun a => key a = k) (Engine.insert_desc key x l)
  = filter (fun a => key a = k) (x :: l).
Proof.
  induction l as [|y l IH]; simpl; [done|].
  destruct (key y <=? key x) eqn:Hle; [done|].
  rewrite (filter_cons _ y), IH, !(filter_cons _ x), !(filter_cons _ y).
  destruct (decide (key x = k)) as [Hx|Hx]; [|done].
  apply Z.leb_gt in Hle. destruct (decide (key y = k)); [lia|done].
Qed.

Lemma sorted_reverse_stable k l :
  filter (fun a => key a = k) (Engine.sorted_reverse key l)
  = filter (fun a => key a = k) l.
Proof.
  induction l as [|x l IH]; simpl; [done|].
  by rewrite insert_desc_stable, !filter_cons, IH.
Qed.
End SortedFacts.

(** C4.  [_sort] returns a permutation of its input in which the seed
    counts never increase, and the records of any one seed count stand in
    the order they had in the input.  In particular records with 3, 9, 1
    and 9 seeds come out as the first 9, the second 9, the 3 and the 1. *)
Theorem sort_is_stable_descending :
  (∀ items : list Torrent,
      Engine._sort items ≡ₚ items
      ∧ StronglySorted (fun a b => seeds b ≤ seeds a) (Engine._sort items)
      ∧ ∀ k, filter (fun r => seeds r = k) (Engine._sort items)
             = filter (fun r => seeds r = k) items)
  ∧ (∀ p1 t1 l1 k1 u1 p2 t2 l2 k2 u2 p3 t3 l3 k3 u3 p4 t4 l4 k4 u4,
       let a := mkTorrent p1 t1 3 l1 k1 u1 in
       let b := mkTorrent p2 t2 9 l2 k2 u2 in
       let c := mkTorrent p3 t3 1 l3 k3 u3 in
       let d := mkTorrent p4 t4 9 l4 k4 u4 in
       Engine._sort [a; b; c; d] = [b; d; a; c]).
Proof.
  split.
  - intros items. unfold Engine._sort. split_and!.
    + apply sorted_reverse_perm.
    + apply sorted_reverse_sorted.
    + intros k. apply sorted_reverse_stable.
  - intros. reflexivity.
Qed.

(** ** The registry *)

Lemma remove_absent (m : Manager.t) nm :
  Manager.get m nm = None → Manager._remove m (Manager.Name nm) = m.
Proof.
  unfold Manager.get, Manager._remove, dict_contains. simpl.
  by intros ->.
Qed.

Lemma set_enabled_absent b (m : Manager.t) nm :
  Manager.get m nm = None → Manager._set_enabled b m (Manager.Name nm) = m.
Proof. unfold Manager.get, Manager._set_enabled. by intros ->. Qed.

(** C10.  In every registry, [remove], [disable] and [enable] called with
    names that are not registered return normally and leave the registry
    as it was: the same dictionary and the same provider objects, enabled
    flags included. *)
Theorem unknown_names_change_nothing (m : Manager.t) (names : list string) :
  Forall (fun nm => Manager.get m nm = None) names →
  Manager.remove m (Manager.Name <$> names) = m
  ∧ Manager.disable m (Manager.Name <$> names) = m
  ∧ Manager.enable m (Manager.Name <$> names) = m.
Proof.
  unfold Manager.remove, Manager.disable, Manager.enable,
    Manager._disable, Manager._enable.
  induction 1 as [|nm names Hnm _ IH]; simpl; [done|].
  by rewrite remove_absent, !set_enabled_absent.
Qed.

(** ** The engine *)

(** C8.  With an empty query, or with no enabled provider, [search]
    returns the empty list and nothing else happens: no pool is created
    and no task starts. *)
Theorem search_short_circuits (m : Manager.t) (w : Engine.world)
    (query : string) (limit : Z) (timeout : Q) (n_threads : option Z) :
  query = "" ∨ Engine.get_providers m (Some true) = [] →
  Engine.search m w query limit timeout n_threads = (Ok [], []).
Proof.
  unfold Engine.search. intros [-> | Hnone]; [done|].
  rewrite Hnone. simpl. by destruct (String.eqb query "").
Qed.

Section PoolFacts.
Context (w : Engine.world) (query : string) (limit : Z) (timeout : Q)
        (n_threads : Z).

Abbreviation step := (Engine.step w query limit timeout n_threads).
Abbreviation finish := (Engine.finish w query limit timeout).
Abbreviation run_pool := (Engine.run_pool w query limit timeout n_threads).

(** A property of pools that every step of every thread keeps holds when
    the pool is left. *)
Lemma run_pool_invariant (inv : Engine.pool → Prop) providers :
  inv (Engine.mkPool [] (Engine.Pending <$> providers)
         [Engine.EvPool n_threads]) →
  (∀ pl i, inv pl → inv (step pl i)) →
  (∀ pl i, inv pl → inv (finish pl i)) →
  inv (run_pool providers).
Proof.
  intros H0 Hstep Hfinish. unfold Engine.run_pool.
  assert (Hfold : ∀ (f : Engine.pool → nat → Engine.pool) l pl,
    (∀ pl i, inv pl → inv (f pl i)) → inv pl → inv (foldl f pl l)).
  { intros f l. induction l as [|i l IH]; simpl; eauto. }
  apply Hfold; [done|]. by apply Hfold.
Qed.

Lemma put_nowait_within_limit q t q' :
  within_limit limit q → Engine.put_nowait limit q t = Ok q' →
  within_limit limit q'.
Proof.
  unfold within_limit, Engine.put_nowait, Engine.full.
  intros Hq Hput Hpos.
  destruct (0 <? limit) eqn:H0; [|lia]. simpl in Hput.
  destruct (limit <=? Z.of_nat (length q)) eqn:Hfull; [done|].
  injection Hput as <-. rewrite length_app. simpl. lia.
Qed.

Lemma consume_within_limit rest fin : ∀ q,
  within_limit limit q →
  within_limit limit (Engine.consume limit rest fin q).2.
Proof.
  induction rest as [|t rest IH]; intros q Hq; simpl; [done|].
  destruct (Engine.put_nowait limit q t) as [q'|e] eqn:Hput; [|done].
  eapply IH, put_nowait_within_limit; eauto.
Qed.

Lemma step_within_limit pl i :
  within_limit limit (Engine.queue pl) →
  within_limit limit (Engine.queue (step pl i)).
Proof.
  intros Hq. unfold Engine.step.
  destruct (Engine.tasks pl !! i) as [[p|rest fin|res]|]; try done.
  - destruct (Engine.may_start _ _ _); [|done].
    by destruct (Engine.task_start _ _ _ _ _).
  - unfold Engine.task_resume. destruct rest as [|t rest]; [done|].
    destruct (Engine.put_nowait limit (Engine.queue pl) t) eqn:Hput;
      [|done].
    simpl. eapply put_nowait_within_limit; eauto.
Qed.

Lemma finish_within_limit pl i :
  within_limit limit (Engine.queue pl) →
  within_limit limit (Engine.queue (finish pl i)).
Proof.
  intros Hq. unfold Engine.finish.
  destruct (Engine.tasks pl !! i) as [[p|rest fin|res]|]; try done.
  - destruct (Engine.task_start _ _ _ _ _) as [[p'|rest fin|res] evs];
      try done.
    pose proof (consume_within_limit rest fin _ Hq) as Hc.
    by destruct (Engine.consume _ _ _ _).
  - pose proof (consume_within_limit rest fin _ Hq) as Hc.
    by destruct (Engine.consume _ _ _ _).
Qed.

Lemma run_pool_within_limit providers :
  within_limit limit (Engine.queue (run_pool providers)).
Proof.
  apply (run_pool_invariant
           (fun pl => within_limit limit (Engine.queue pl))).
  - intros ?. simpl. lia.
  - apply step_within_limit.
  - apply finish_within_limit.
Qed.
End PoolFacts.

Lemma merge_item_length filtered item :
  (length (merge_item filtered item) ≤ S (length filtered))%nat.
Proof.
  unfold merge_item, replace_better.
  destruct (has_title _ _); rewrite ?length_app, length_fmap; simpl; lia.
Qed.

Lemma filter_length items :
  (length (foldl merge_item [] items) ≤ length items)%nat.
Proof.
  induction items as [|item items IH] using rev_ind; [done|].
  rewrite foldl_snoc, length_app. simpl.
  pose proof (merge_item_length (foldl merge_item [] items) item). lia.
Qed.

(** C5.  Whenever [search] is called with a positive [limit] and returns
    a list, the list has at most [limit] records, whatever the providers
    yield and however the threads interleave. *)
Theorem search_respects_limit (m : Manager.t) (w : Engine.world)
    (query : string) (limit : Z) (timeout : Q) (n_threads : option Z)
    (out : list Torrent) (evs : list Engine.event) :
  0 < limit →
  Engine.search m w query limit timeout n_threads = (Ok out, evs) →
  Z.of_nat (length out) ≤ limit.
Proof.
  intros Hpos. unfold Engine.search.
  destruct (String.eqb query ""); [intros [= <- _]; simpl; lia|].
  destruct (_ =? 0); [intros [= <- _]; simpl; lia|].
  unfold Engine._multithreaded_search.
  match goal with |- context [Engine.run_pool ?w ?q ?l ?t ?n ?ps] =>
    pose proof (run_pool_within_limit w q l t n ps Hpos) as Hq;
    destruct (Engine.first_failure
                (Engine.tasks (Engine.run_pool w q l t n ps)))
  end; [done|].
  simpl. unfold Engine._filter. rewrite filter_loop_spec. simpl.
  intros [= <- _]. unfold Engine._sort.
  rewrite (Permutation_length (sorted_reverse_perm seeds _)).
  match goal with |- context [foldl merge_item [] ?l] =>
    pose proof (filter_length l) end.
  lia.
Qed.

(** *** Errors caught at the task boundary *)

Lemma uncaught_idem (o : option exn) :
  (o ≫= Engine.uncaught) ≫= Engine.uncaught = o ≫= Engine.uncaught.
Proof.
  destruct o as [e|]; [|done]. simpl. unfold Engine.uncaught.
  destruct (is_TorrentProviderError e) eqn:He; [done|].
  destruct (decide (e = QueueFull)) as [Hq|Hq]; [done|].
  simpl. by rewrite He, decide_False.
Qed.

Lemma forallb_fmap {A B} (f : A → B) (g : B → bool) l :
  forallb g (f <$> l) = forallb (fun a => g (f a)) l.
Proof. induction l as [|a l IH]; csimpl; [done|]. by rewrite IH. Qed.

Lemma forallb_ext {A} (f g : A → bool) l :
  (∀ a, f a = g a) → forallb f l = forallb g l.
Proof.
  intros Hfg. induction l as [|a l IH]; simpl; [done|]. by rewrite Hfg, IH.
Qed.

Lemma filter_fmap_length {A B} (f : A → B) (g : B → bool) l :
  length (List.filter g (f <$> l))
  = length (List.filter (fun a => g (f a)) l).
Proof.
  induction l as [|a l IH]; csimpl; [done|].
  destruct (g (f a)); csimpl; by rewrite IH.
Qed.

Lemma may_start_quiet n ts i :
  Engine.may_start n (quiet_task <$> ts) i = Engine.may_start n ts i.
Proof.
  unfold Engine.may_start.
  rewrite <- fmap_take, forallb_fmap, filter_fmap_length.
  f_equal.
  - apply forallb_ext. by intros [].
  - do 3 f_equal. apply filter_ext. by intros [].
Qed.

Lemma consume_quiet limit rest fin : ∀ q,
  Engine.consume limit rest (fin ≫= Engine.uncaught) q
  = Engine.consume limit rest fin q.
Proof.
  induction rest as [|t rest IH]; intros q; simpl.
  - by rewrite uncaught_idem.
  - destruct (Engine.put_nowait limit q t); [apply IH|done].
Qed.

Section QuietFacts.
Context (w : Engine.world) (query : string) (limit : Z) (timeout : Q)
        (n_threads : Z).

Lemma task_start_quiet p e :
  Engine.task_start (quiet p) query limit timeout e
  = (quiet_task (Engine.task_start p query limit timeout e).1,
     (Engine.task_start p query limit timeout e).2).
Proof.
  unfold Engine.task_start. simpl. by destruct (Qle_bool _ _).
Qed.

Lemma step_quiet pl i :
  Engine.step w query limit timeout n_threads (quiet_pool pl) i
  = quiet_pool (Engine.step w query limit timeout n_threads pl i).
Proof.
  unfold Engine.step, quiet_pool at 1. simpl.
  rewrite list_lookup_fmap, may_start_quiet.
  destruct (Engine.tasks pl !! i) as [[p|rest fin|res]|]; simpl; try done.
  - destruct (Engine.may_start _ _ _); [|done].
    rewrite task_start_quiet.
    destruct (Engine.task_start p _ _ _ _) as [ts evs]. simpl.
    unfold quiet_pool. simpl. by rewrite list_fmap_insert.
  - unfold Engine.task_resume. destruct rest as [|t rest].
    + unfold quiet_pool. simpl.
      by rewrite list_fmap_insert, uncaught_idem.
    + destruct (Engine.put_nowait _ _ _); unfold quiet_pool; simpl;
        by rewrite list_fmap_insert.
Qed.

Lemma finish_quiet pl i :
  Engine.finish w query limit timeout (quiet_pool pl) i
  = quiet_pool (Engine.finish w query limit timeout pl i).
Proof.
  unfold Engine.finish, quiet_pool at 1. simpl.
  rewrite list_lookup_fmap.
  destruct (Engine.tasks pl !! i) as [[p|rest fin|res]|]; simpl; try done.
  - rewrite task_start_quiet.
    destruct (Engine.task_start p _ _ _ _) as [[p'|rest fin|res] evs];
      simpl; unfold quiet_pool; simpl; rewrite ?consume_quiet;
      try by rewrite list_fmap_insert.
    destruct (Engine.consume _ _ _ _). simpl.
    by rewrite list_fmap_insert.
  - rewrite consume_quiet. destruct (Engine.consume _ _ _ _).
    unfold quiet_pool. simpl. by rewrite list_fmap_insert.
Qed.

Lemma foldl_quiet (f : Engine.pool → nat → Engine.pool) l :
  (∀ pl i, f (quiet_pool pl) i = quiet_pool (f pl i)) →
  ∀ pl, foldl f (quiet_pool pl) l = quiet_pool (foldl f pl l).
Proof.
  intros Hf. induction l as [|i l IH]; intros pl; simpl; [done|].
  by rewrite Hf, IH.
Qed.

Lemma run_pool_quiet providers :
  Engine.run_pool w query limit timeout n_threads (quiet <$> providers)
  = quiet_pool (Engine.run_pool w query limit timeout n_threads providers).
Proof.
  unfold Engine.run_pool. rewrite length_fmap.
  rewrite <- (foldl_quiet _ _ finish_quiet), <- (foldl_quiet _ _ step_quiet).
  unfold quiet_pool at 1. simpl.
  by rewrite <- !list_fmap_compose.
Qed.

Lemma first_failure_quiet ts :
  Engine.first_failure (quiet_task <$> ts) = Engine.first_failure ts.
Proof.
  induction ts as [|[p|rest fin|[e|]] ts IH]; simpl; by rewrite ?IH.
Qed.

Lemma multithreaded_search_quiet providers :
  Engine._multithreaded_search w query limit timeout n_threads
    (quiet <$> providers)
  = Engine._multithreaded_search w query limit timeout n_threads providers.
Proof.
  unfold Engine._multithreaded_search.
  rewrite run_pool_quiet. simpl. by rewrite first_failure_quiet.
Qed.
End QuietFacts.

Lemma get_all_quiet m enabled_filter :
  Manager.get_all (quiet_manager m) enabled_filter
  = Manager.get_all m enabled_filter.
Proof.
  unfold Manager.get_all, quiet_manager. simpl.
  apply filter_ext. intros l. rewrite lookup_fmap.
  by destruct enabled_filter, (Manager.heap m !! l).
Qed.

Lemma omap_lookup_quiet (h : gmap nat Provider) (ls : list nat) :
  omap (fun l => (quiet <$> h) !! l) ls = quiet <$> omap (fun l => h !! l) ls.
Proof.
  induction ls as [|l ls IH]; [done|]. csimpl.
  rewrite lookup_fmap, IH. by destruct (h !! l).
Qed.

Lemma get_providers_quiet m enabled_filter :
  Engine.get_providers (quiet_manager m) enabled_filter
  = quiet <$> Engine.get_providers m enabled_filter.
Proof.
  unfold Engine.get_providers. rewrite get_all_quiet.
  apply omap_lookup_quiet.
Qed.

Lemma search_quiet m w query limit timeout n_threads :
  Engine.search (quiet_manager m) w query limit timeout n_threads
  = Engine.search m w query limit timeout n_threads.
Proof.
  unfold Engine.search.
  rewrite get_providers_quiet, length_fmap.
  destruct (String.eqb query ""); [done|].
  destruct (_ =? 0); [done|].
  by rewrite multithreaded_search_quiet.
Qed.

Section CalmFacts.
Context (w : Engine.world) (query : string) (limit : Z) (timeout : Q)
        (n_threads : Z).

Lemma consume_calm rest fin : ∀ q,
  fin ≫= Engine.uncaught = None →
  (Engine.consume limit rest fin q).1 = None.
Proof.
  induction rest as [|t rest IH]; intros q Hfin; simpl; [done|].
  unfold Engine.put_nowait. destruct (Engine.full limit q); [done|].
  by apply IH.
Qed.

Lemma task_start_calm p e :
  calm (Engine.Pending p) →
  calm (Engine.task_start p query limit timeout e).1.
Proof.
  intros Hp. unfold Engine.task_start.
  destruct (Qle_bool _ _); simpl; [done|]. apply Hp.
Qed.

Lemma step_calm pl i :
  Forall calm (Engine.tasks pl) →
  Forall calm
    (Engine.tasks (Engine.step w query limit timeout n_threads pl i)).
Proof.
  intros Hall. unfold Engine.step.
  destruct (Engine.tasks pl !! i) as [[p|rest fin|res]|] eqn:Hi; try done.
  - destruct (Engine.may_start _ _ _); [|done].
    pose proof (task_start_calm p (Engine.elapsed w i)) as Hc.
    destruct (Engine.task_start p _ _ _ _) as [ts evs]. simpl in *.
    apply Forall_insert; [done|].
    apply Hc. exact (Forall_lookup_1 _ _ _ _ Hall Hi).
  - pose proof (Forall_lookup_1 _ _ _ _ Hall Hi) as Hfin. simpl in Hfin.
    unfold Engine.task_resume. destruct rest as [|t rest]; simpl.
    + by apply Forall_insert.
    + unfold Engine.put_nowait.
      destruct (Engine.full limit _); simpl; by apply Forall_insert.
Qed.

Lemma finish_calm pl i :
  Forall calm (Engine.tasks pl) →
  Forall calm (Engine.tasks (Engine.finish w query limit timeout pl i)).
Proof.
  intros Hall. unfold Engine.finish.
  destruct (Engine.tasks pl !! i) as [[p|rest fin|res]|] eqn:Hi; try done.
  - pose proof (task_start_calm p (Engine.elapsed w i)) as Hc.
    specialize (Hc (Forall_lookup_1 _ _ _ _ Hall Hi)).
    destruct (Engine.task_start p _ _ _ _) as [[p'|rest fin|res] evs];
      simpl in *; try by apply Forall_insert.
    pose proof (consume_calm rest fin (Engine.queue pl) Hc) as Hres.
    destruct (Engine.consume _ _ _ _). simpl in *.
    by apply Forall_insert.
  - pose proof (Forall_lookup_1 _ _ _ _ Hall Hi) as Hfin. simpl in Hfin.
    pose proof (consume_calm rest fin (Engine.queue pl) Hfin) as Hres.
    destruct (Engine.consume _ _ _ _). simpl in *.
    by apply Forall_insert.
Qed.

Lemma first_failure_calm ts :
  Forall calm ts → Engine.first_failure ts = None.
Proof.
  induction 1 as [|[p|rest fin|[e|]] ts Hc _ IH]; simpl; try done.
Qed.

Lemma multithreaded_search_calm providers :
  Forall (fun p => calm (Engine.Pending p)) providers →
  ∃ found evs,
    Engine._multithreaded_search w query limit timeout n_threads providers
    = (Ok found, evs).
Proof.
  intros Hps. unfold Engine._multithreaded_search.
  rewrite first_failure_calm; [by eauto|].
  apply (run_pool_invariant w query limit timeout n_threads
           (fun pl => Forall calm (Engine.tasks pl))).
  - simpl. by apply Forall_fmap.
  - apply step_calm.
  - apply finish_calm.
Qed.
End CalmFacts.

(** ** The provider *)

Section ProviderFacts.
Context {Selector Element : Type}.
Context (ext : TorrentProvider.externals Selector Element)
        (self : TorrentProvider.config Selector).

Abbreviation no_category_map :=
  (TorrentProvider.categories self = None
   ∨ TorrentProvider.categories self = Some []).

(** X18.  The cases of [_get_category_path] that come out as the
    comments of the code and the spec describe them: without a category
    map ["all"] resolves to no fragment and any other category is not
    supported; with a map a category resolves to its fragment when the
    map has it and is not supported otherwise. *)
Lemma category_resolution_sound_cases :
  (no_category_map →
   TorrentProvider._get_category_path self (Some "all") = Ok None)
  ∧ (∀ c, no_category_map → c ≠ "all" →
       TorrentProvider._get_category_path self (Some c)
       = Raise NotSupportedError)
  ∧ (∀ cats c fragment,
       TorrentProvider.categories self = Some cats → cats ≠ [] →
       dict_get cats c = Some fragment →
       TorrentProvider._get_category_path self (Some c)
       = Ok (Some fragment))
  ∧ (∀ cats c,
       TorrentProvider.categories self = Some cats → cats ≠ [] →
       dict_get cats c = None →
       TorrentProvider._get_category_path self (Some c)
       = Raise NotSupportedError).
Proof.
  unfold TorrentProvider._get_category_path. split_and!.
  - by intros [-> | ->].
  - intros c Hmap Hc.
    assert (bool_decide (Some c = Some "all") = false) as Hne.
    { apply bool_decide_eq_false. congruence. }
    destruct Hmap as [-> | ->]; by rewrite Hne.
  - intros cats c fragment -> Hcats Hget.
    destruct cats; [done|]. unfold dict_contains. by rewrite Hget.
  - intros cats c -> Hcats Hget.
    destruct cats; [done|]. unfold dict_contains. by rewrite Hget.
Qed.

(** C2, at the input where the code leaves the claim.  With no category
    map configured, the category [None] is not turned into ["all"]: the
    comparison [category == "all"] assigns nothing, and the lookup raises
    [NotSupportedError]; the search path is not formatted, for
    [_format_search_path] ends with that error once the query is
    normalized (and with the error of [re.sub] when it is not). *)
Theorem no_category_is_not_supported (query : string) :
  no_category_map →
  TorrentProvider._get_category_path self None = Raise NotSupportedError
  ∧ match normalized_query ext self query with
    | Ok _ =>
        TorrentProvider._format_search_path ext self query None
        = Raise NotSupportedError
    | Raise e =>
        TorrentProvider._format_search_path ext self query None = Raise e
    end.
Proof.
  unfold TorrentProvider._format_search_path.
  fold (normalized_query ext self query).
  unfold TorrentProvider._get_category_path.
  intros Hmap. split.
  - by destruct Hmap as [-> | ->].
  - destruct (normalized_query ext self query) as [q|e]; simpl; [|done].
    by destruct Hmap as [-> | ->].
Qed.

(** [_format_search_path] returns no path for any query and category:
    it reads its local [path] before any assignment. *)
Lemma format_search_path_never_returns query category path :
  TorrentProvider._format_search_path ext self query category ≠ Ok path.
Proof.
  unfold TorrentProvider._format_search_path.
  fold (normalized_query ext self query).
  destruct (normalized_query ext self query) as [q|e]; simpl; [|done].
  destruct (TorrentProvider._get_category_path self category)
    as [[cp|]|e]; simpl; try done.
  destruct (TorrentProvider.str_format ext cp _) as [cp'|[]]; by simpl.
Qed.

(** X16.  [search] raises [TypeError] on every call, before any request
    and any record: it passes one argument to [_format_search_path],
    which takes two. *)
Lemma search_raises_TypeError fuel query category limit timeout :
  TorrentProvider.search ext self fuel query category limit timeout
  = ([], TorrentProvider.Raised TypeError).
Proof.
  unfold TorrentProvider.search. simpl. by destruct timeout.
Qed.

(** C9.  For a record without details page ([info_url] absent or empty)
    [fetch_details_data] returns the empty dictionary; it requests
    nothing and raises nothing. *)
Theorem no_info_url_no_details (torrent : Torrent) (tmo : option Q) :
  info_url torrent = None ∨ info_url torrent = Some "" →
  TorrentProvider.fetch_details_data ext self torrent tmo = (Ok [], []).
Proof.
  unfold TorrentProvider.fetch_details_data. by intros [-> | ->].
Qed.
End ProviderFacts.

(** *** The pagination loop *)

Section LoopFacts.
Context {Selector Element : Type}.
Context (ext : TorrentProvider.externals Selector Element)
        (self : TorrentProvider.config Selector).
Context (limit : option Z) (timeout : option Q) (start_time : Q).

Abbreviation search_loop :=
  (TorrentProvider.search_loop ext self limit timeout start_time).

Abbreviation budget_at := (budget ext timeout start_time).
Abbreviation next_tick :=
  (fun tick : nat => if timeout is Some _ then S tick else tick).

(** The equation of the loop for one more page of fuel. *)
Lemma search_loop_S fuel path remaining tick :
  search_loop (S fuel) path remaining tick
  = match TorrentProvider.loop_guard path limit remaining with
    | Raise e => ([], TorrentProvider.Raised e)
    | Ok false => ([], TorrentProvider.Returned)
    | Ok true =>
        let '(response, evs_fetch) :=
          TorrentProvider.fetch ext self (default "" path)
            (TorrentProvider.headers self) (budget_at tick) in
        match response with
        | Raise e => (evs_fetch, TorrentProvider.Raised e)
        | Ok text =>
            match TorrentProvider.Scraper ext text with
            | Raise ValueError =>
                (evs_fetch, TorrentProvider.Raised ParseError)
            | Raise e => (evs_fetch, TorrentProvider.Raised e)
            | Ok scraper =>
                let items :=
                  TorrentProvider.select_elements ext scraper
                    (TorrentProvider.items_selector self) remaining in
                match TorrentProvider.yield_items ext self items with
                | (evs_items, Some e) =>
                    (evs_fetch ++ evs_items, TorrentProvider.Raised e)
                | (evs_items, None) =>
                    match remaining with
                    | None =>
                        (evs_fetch ++ evs_items,
                         TorrentProvider.Raised TypeError)
                    | Some r =>
                        let '(evs, o) :=
                          search_loop fuel
                            (TorrentProvider.select_one ext scraper
                               (TorrentProvider.next_page_selector self))
                            (Some (r - Z.of_nat (length items)))
                            (next_tick tick) in
                        (evs_fetch ++ evs_items ++ evs, o)
                    end
                end
            end
        end
    end.
Proof. unfold budget. by destruct timeout. Qed.

Lemma fetch_events u hdrs tmo :
  ∃ u', (TorrentProvider.fetch ext self u hdrs tmo).2
        = [TorrentProvider.Get u' hdrs tmo].
Proof. unfold TorrentProvider.fetch. cbn. eauto. Qed.

Lemma yield_items_requests items :
  request_timeouts (TorrentProvider.yield_items ext self items).1 = [].
Proof.
  induction items as [|item items IH]; [done|].
  cbn [TorrentProvider.yield_items].
  destruct (TorrentProvider.Torrent_new ext
              (TorrentProvider._get_torrent_data ext self item)) as [t|e].
  - destruct (TorrentProvider.yield_items ext self items). by simpl in *.
  - by destruct e.
Qed.

(** An item node whose record cannot be built for want of a required
    field is passed over: the page goes on with the next node. *)
Lemma yield_items_skips_invalid item items :
  TorrentProvider.Torrent_new ext
    (TorrentProvider._get_torrent_data ext self item) = Raise ValueError →
  TorrentProvider.yield_items ext self (item :: items)
  = TorrentProvider.yield_items ext self items.
Proof. cbn [TorrentProvider.yield_items]. by intros ->. Qed.

(** The guard of the loop, for the limits that are numbers. *)
Lemma loop_guard_spec path lim r :
  TorrentProvider.loop_guard path (Some lim) (Some r)
  = Ok (TorrentProvider.truthy path && ((lim =? 0) || (0 <? r))).
Proof.
  unfold TorrentProvider.loop_guard.
  destruct (TorrentProvider.truthy path); simpl; [|done].
  by destruct lim.
Qed.

Lemma loop_guard_no_limit path remaining :
  TorrentProvider.loop_guard path None remaining
  = Ok (TorrentProvider.truthy path).
Proof.
  unfold TorrentProvider.loop_guard.
  by destruct (TorrentProvider.truthy path).
Qed.

(** One turn of the loop when nothing raises: the page is fetched with
    the budget of the moment, its records are yielded, the quota goes
    down by the number of item nodes and the loop goes on from the
    next-page link. *)
Lemma search_loop_page fuel path r tick text scraper evs :
  TorrentProvider.loop_guard path limit (Some r) = Ok true →
  (TorrentProvider.fetch ext self (default "" path)
     (TorrentProvider.headers self) (budget_at tick)).1 = Ok text →
  TorrentProvider.Scraper ext text = Ok scraper →
  TorrentProvider.yield_items ext self
    (TorrentProvider.select_elements ext scraper
       (TorrentProvider.items_selector self) (Some r)) = (evs, None) →
  search_loop (S fuel) path (Some r) tick
  = let items :=
      TorrentProvider.select_elements ext scraper
        (TorrentProvider.items_selector self) (Some r) in
    let rest :=
      search_loop fuel
        (TorrentProvider.select_one ext scraper
           (TorrentProvider.next_page_selector self))
        (Some (r - Z.of_nat (length items))) (next_tick tick) in
    ((TorrentProvider.fetch ext self (default "" path)
        (TorrentProvider.headers self) (budget_at tick)).2
     ++ evs ++ rest.1, rest.2).
Proof.
  intros Hguard Hfetch Hparse Hitems.
  rewrite search_loop_S, Hguard.
  destruct (TorrentProvider.fetch _ _ _ _ _) as [response evs_fetch].
  simpl in Hfetch. subst response. rewrite Hparse. cbv zeta.
  rewrite Hitems.
  by destruct (TorrentProvider.search_loop _ _ _ _ _ _ _ _ _).
Qed.

(** C7, at the input where the code leaves the claim.  When no limit is
    given ([limit] and so [remaining] are [None]) and a page is fetched,
    parsed and its records yielded, the decrement of the quota raises
    [TypeError]: the loop does not go on to the next page, whether or not
    the page has a next-page link. *)
Theorem no_limit_stops_at_the_decrement fuel path tick text scraper evs :
  limit = None →
  TorrentProvider.truthy path = true →
  (TorrentProvider.fetch ext self (default "" path)
     (TorrentProvider.headers self) (budget_at tick)).1 = Ok text →
  TorrentProvider.Scraper ext text = Ok scraper →
  TorrentProvider.yield_items ext self
    (TorrentProvider.select_elements ext scraper
       (TorrentProvider.items_selector self) None) = (evs, None) →
  search_loop (S fuel) path None tick
  = ((TorrentProvider.fetch ext self (default "" path)
        (TorrentProvider.headers self) (budget_at tick)).2 ++ evs,
     TorrentProvider.Raised TypeError).
Proof.
  intros Hlimit Hpath Hfetch Hparse Hitems.
  rewrite search_loop_S, Hlimit, loop_guard_no_limit, Hpath.
  destruct (TorrentProvider.fetch _ _ _ _ _) as [response evs_fetch].
  simpl in Hfetch. subst response. rewrite Hparse. cbv zeta.
  by rewrite Hitems.
Qed.

(** Every request of the loop carries the budget of its iteration:
    the [k]-th request of a run that starts at reading [tick] is given
    [timeout - (time.time() - start_time)] with reading [tick + k]. *)
Lemma loop_request_budgets fuel : ∀ path remaining tick,
  timeout ≠ None →
  let evs := (search_loop fuel path remaining tick).1 in
  request_timeouts evs
  = (fun k => budget_at (tick + k))
      <$> seq 0 (length (request_timeouts evs)).
Proof.
  induction fuel as [|fuel IH]; intros path remaining tick Htmo;
    [done|].
  cbv zeta. rewrite search_loop_S.
  destruct (TorrentProvider.loop_guard path limit remaining)
    as [[|]|e]; try done.
  destruct (fetch_events (default "" path) (TorrentProvider.headers self)
              (budget_at tick)) as [u Hget].
  destruct (TorrentProvider.fetch _ _ _ _ _) as [response evs_fetch].
  simpl in Hget. subst evs_fetch.
  assert (Hone : ∀ evs_items,
    request_timeouts evs_items = [] →
    request_timeouts
      ([TorrentProvider.Get u (TorrentProvider.headers self)
          (budget_at tick)] ++ evs_items)
    = (fun k => budget_at (tick + k))
        <$> seq 0 (length (request_timeouts
              ([TorrentProvider.Get u (TorrentProvider.headers self)
                  (budget_at tick)] ++ evs_items)))).
  { intros evs_items Hnone. unfold request_timeouts in *.
    rewrite omap_app, Hnone. simpl. by rewrite Nat.add_0_r. }
  destruct response as [text|e]; [|by apply (Hone [])].
  destruct (TorrentProvider.Scraper ext text) as [scraper|e];
    [|destruct e; by apply (Hone [])].
  cbv zeta.
  pose proof (yield_items_requests
    (TorrentProvider.select_elements ext scraper
       (TorrentProvider.items_selector self) remaining)) as Hitems.
  destruct (TorrentProvider.yield_items ext self _)
    as [evs_items [e|]]; simpl in Hitems; [by apply Hone|].
  destruct remaining as [r|]; [|by apply Hone].
  specialize (IH (TorrentProvider.select_one ext scraper
                    (TorrentProvider.next_page_selector self))
                 (Some (r - Z.of_nat (length
                    (TorrentProvider.select_elements ext scraper
                       (TorrentProvider.items_selector self) (Some r)))))
                 (next_tick tick) Htmo).
  destruct (TorrentProvider.search_loop _ _ _ _ _ fuel _ _ _)
    as [evs o]. simpl in IH. simpl.
  unfold request_timeouts in *.
  rewrite omap_app, Hitems. simpl.
  rewrite Nat.add_0_r. f_equal.
  rewrite IH at 1. rewrite <- fmap_S_seq, <- list_fmap_compose.
  apply list_fmap_ext. intros i k _. simpl.
  destruct timeout; [|done]. by rewrite Nat.add_succ_r.
Qed.

(** When the guard holds the page is requested, whatever is left of the
    budget: the loop has no test of its own on the time that remains. *)
Lemma loop_always_fetches fuel path remaining tick :
  TorrentProvider.loop_guard path limit remaining = Ok true →
  ∃ u evs o,
    search_loop (S fuel) path remaining tick
    = (TorrentProvider.Get u (TorrentProvider.headers self)
         (budget_at tick) :: evs, o).
Proof.
  intros Hguard. rewrite search_loop_S, Hguard.
  destruct (fetch_events (default "" path) (TorrentProvider.headers self)
              (budget_at tick)) as [u Hget].
  destruct (TorrentProvider.fetch _ _ _ _ _) as [response evs_fetch].
  simpl in Hget. subst evs_fetch.
  destruct response as [text|e]; [|by eauto].
  destruct (TorrentProvider.Scraper ext text) as [scraper|e];
    [|destruct e; by eauto].
  cbv zeta.
  destruct (TorrentProvider.yield_items ext self _)
    as [evs_items [e|]]; [by eauto|].
  destruct remaining as [r|]; [|by eauto].
  destruct (TorrentProvider.search_loop _ _ _ _ _ fuel _ _ _). by eauto.
Qed.
End LoopFacts.

(** *** The deadline *)

Lemma task_start_in_time p query limit timeout e :
  Forall started_in_time (Engine.task_start p query limit timeout e).2.
Proof.
  unfold Engine.task_start.
  destruct (Qle_bool (timeout - e) (1 # 100)) eqn:Hle; simpl.
  - by repeat constructor.
  - by repeat constructor.
Qed.

Lemma search_log_in_time m w query limit timeout n_threads :
  Forall started_in_time
    (Engine.search m w query limit timeout n_threads).2.
Proof.
  unfold Engine.search.
  destruct (String.eqb query ""); [by constructor|].
  destruct (_ =? 0); [by constructor|].
  unfold Engine._multithreaded_search.
  match goal with |- context [Engine.run_pool ?w ?q ?l ?t ?n ?ps] =>
    assert (Forall started_in_time
              (Engine.log (Engine.run_pool w q l t n ps))) as Hlog;
    [|by destruct (Engine.first_failure _)]
  end.
  apply (run_pool_invariant _ _ _ _ _
           (fun pl => Forall started_in_time (Engine.log pl))).
  - by repeat constructor.
  - intros pl i Hpl. unfold Engine.step.
    destruct (Engine.tasks pl !! i) as [[p|rest fin|res]|]; try done.
    + destruct (Engine.may_start _ _ _); [|done].
      pose proof (task_start_in_time p query limit timeout
                    (Engine.elapsed w i)) as Hst.
      destruct (Engine.task_start _ _ _ _ _). simpl in *.
      by apply Forall_app.
    + by destruct (Engine.task_resume _ _ _ _).
  - intros pl i Hpl. unfold Engine.finish.
    destruct (Engine.tasks pl !! i) as [[p|rest fin|res]|]; try done.
    + pose proof (task_start_in_time p query limit timeout
                    (Engine.elapsed w i)) as Hst.
      destruct (Engine.task_start _ _ _ _ _) as [[p'|rest fin|res] evs];
        simpl in *; try by apply Forall_app.
      destruct (Engine.consume _ _ _ _). simpl. by apply Forall_app.
    + by destruct (Engine.consume _ _ _ _).
Qed.

(** ** The theorems at work on the sample world *)



(** An error that the task boundary does not catch reaches the caller of
    [search], whatever the other providers found. *)
Lemma uncaught_error_reaches_the_caller :
  (Engine.search Sample.broken_registry Sample.w "doom" 0 30 None).1
  = Raise TypeError.
Proof. vm_compute. reflexivity. Qed.

Lemma no_category_is_not_supported_witness :
  TorrentProvider._get_category_path Sample.tracker None
  = Raise NotSupportedError
  ∧ TorrentProvider._format_search_path Sample.ext Sample.tracker "doom"
      None
    = Raise NotSupportedError.
Proof.
  apply (no_category_is_not_supported Sample.ext Sample.tracker "doom").
  left. reflexivity.
Defined.

Lemma search_respects_limit_witness :
  Z.of_nat (length Sample.limited_out) ≤ 2.
Proof.
  apply (search_respects_limit Sample.registry Sample.w "doom" 2 30 None
           Sample.limited_out Sample.limited_log).
  - lia.
  - vm_compute. reflexivity.
Defined.

Lemma no_limit_stops_at_the_decrement_witness :
  TorrentProvider.search_loop Sample.ext Sample.tracker None None 0%Q 5
    (Some "/search/doom") None 0
  = ([TorrentProvider.Get "http://tracker.example/search/doom" None None;
      TorrentProvider.Yield
        (mkTorrent "tracker" "Doom Patrol S01" 0 0 (Some "magnet:?xt=1")
           None)],
     TorrentProvider.Raised TypeError).
Proof.
  apply (no_limit_stops_at_the_decrement Sample.ext Sample.tracker None
           None 0%Q 4 (Some "/search/doom") 0%nat "first"
           (Sample.Page
              [[("title", Some "Doom Patrol S01");
                ("link", Some "magnet:?xt=1")];
               [("title", None); ("link", Some "magnet:?xt=2")]]
              (Some "/page/2"))
           [TorrentProvider.Yield
              (mkTorrent "tracker" "Doom Patrol S01" 0 0
                 (Some "magnet:?xt=1") None)]);
    reflexivity.
Defined.

Lemma search_short_circuits_witness :
  Engine.search Sample.registry Sample.w "" 10 30 None = (Ok [], []).
Proof.
  apply (search_short_circuits Sample.registry Sample.w "" 10 30 None).
  left. reflexivity.
Defined.

Lemma no_info_url_no_details_witness :
  TorrentProvider.fetch_details_data Sample.ext Sample.tracker
    (Sample.record "tracker" "Doom Patrol S01" 7) (Some 30%Q)
  = (Ok [], []).
Proof.
  apply (no_info_url_no_details Sample.ext Sample.tracker
           (Sample.record "tracker" "Doom Patrol S01" 7) (Some 30%Q)).
  left. reflexivity.
Defined.

Lemma unknown_names_change_nothing_witness :
  Manager.remove Sample.registry [Manager.Name "eztv"] = Sample.registry
  ∧ Manager.disable Sample.registry [Manager.Name "eztv"] = Sample.registry
  ∧ Manager.enable Sample.registry [Manager.Name "eztv"] = Sample.registry.
Proof.
  apply (unknown_names_change_nothing Sample.registry ["eztv"]).
  repeat constructor.
Defined.

(** * Further properties of the code *)

(** ** Dictionaries *)

Section DictFacts.
Context {V : Type}.
Implicit Types (d : list (string * V)) (k : string) (v : V).

Lemma dict_get_set_eq d k v : dict_get (dict_set d k v) k = Some v.
Proof.
  induction d as [|[k' v'] d IH]; simpl.
  - by rewrite String.eqb_refl.
  - destruct (String.eqb k k') eqn:Hk; simpl; rewrite Hk; [done|apply IH].
Qed.

Lemma dict_get_set_ne d k k' v :
  k ≠ k' → dict_get (dict_set d k v) k' = dict_get d k'.
Proof.
  intros Hne. induction d as [|[k0 v0] d IH]; simpl.
  - apply String.eqb_neq in Hne. rewrite String.eqb_sym in Hne.
    by rewrite Hne.
  - destruct (String.eqb k k0) eqn:Hk; simpl; [|by rewrite IH].
    apply String.eqb_eq in Hk as <-.
    apply String.eqb_neq in Hne. rewrite String.eqb_sym in Hne.
    by rewrite Hne.
Qed.

Lemma dict_get_elem_of d k v : dict_get d k = Some v → (k, v) ∈ d.
Proof.
  induction d as [|[k' v'] d IH]; simpl; [done|].
  destruct (String.eqb k k') eqn:Hk.
  - apply String.eqb_eq in Hk as ->. intros [= ->]. apply elem_of_cons.
    by left.
  - intros Hget. apply elem_of_cons. right. by apply IH.
Qed.

Lemma dict_get_None d k : dict_get d k = None ↔ k ∉ fst <$> d.
Proof.
  induction d as [|[k' v'] d IH]; simpl.
  - split; [intros _; apply not_elem_of_nil|done].
  - rewrite not_elem_of_cons. destruct (String.eqb k k') eqn:Hk.
    + apply String.eqb_eq in Hk. split; [done|]. by intros [? _].
    + apply String.eqb_neq in Hk. rewrite IH. split; [done|].
      by intros [_ ?].
Qed.

Lemma elem_of_dict_get d k v :
  NoDup (fst <$> d) → (k, v) ∈ d → dict_get d k = Some v.
Proof.
  induction d as [|[k' v'] d IH]; simpl.
  - by intros _ ?%elem_of_nil.
  - intros [Hk' Hd]%NoDup_cons [[= -> ->]|Hin]%elem_of_cons.
    + by rewrite String.eqb_refl.
    + destruct (String.eqb k k') eqn:Hk; [|by apply IH].
      apply String.eqb_eq in Hk as ->. exfalso. apply Hk'.
      apply list_elem_of_fmap. by exists (k', v).
Qed.

Lemma dict_set_keys d k v :
  fst <$> dict_set d k v
  = if dict_contains d k then fst <$> d else (fst <$> d) ++ [k].
Proof.
  unfold dict_contains. induction d as [|[k' v'] d IH]; [done|].
  csimpl. destruct (String.eqb k k') eqn:Hk; csimpl; [done|].
  rewrite IH. by destruct (dict_get d k).
Qed.

Lemma dict_set_values_new d k v :
  dict_get d k = None → dict_values (dict_set d k v) = dict_values d ++ [v].
Proof.
  unfold dict_values. induction d as [|[k' v'] d IH]; simpl; [done|].
  destruct (String.eqb k k') eqn:Hk; [done|].
  intros Hget. simpl. by rewrite IH.
Qed.

Lemma dict_set_length_old d k v v0 :
  dict_get d k = Some v0 → length (dict_set d k v) = length d.
Proof.
  induction d as [|[k' v'] d IH]; simpl; [done|].
  destruct (String.eqb k k') eqn:Hk; [done|].
  intros Hget. simpl. by rewrite IH.
Qed.

Lemma dict_set_NoDup d k v :
  NoDup (fst <$> d) → NoDup (fst <$> dict_set d k v).
Proof.
  intros Hd. rewrite dict_set_keys. unfold dict_contains.
  destruct (dict_get d k) eqn:Hget; [done|].
  apply NoDup_app. split_and!; [done| |apply NoDup_singleton].
  intros k' Hk' ->%list_elem_of_singleton.
  by apply dict_get_None in Hget.
Qed.

Lemma elem_of_dict_set d k v k' v' :
  (k', v') ∈ dict_set d k v → (k', v') = (k, v) ∨ (k', v') ∈ d.
Proof.
  induction d as [|[k0 v0] d IH]; simpl.
  - intros ?%list_elem_of_singleton. by left.
  - destruct (String.eqb k k0) eqn:Hk.
    + apply String.eqb_eq in Hk as ->.
      intros [->|Hin]%elem_of_cons; [by left|].
      right. apply elem_of_cons. by right.
    + intros [->|Hin]%elem_of_cons.
      * right. apply elem_of_cons. by left.
      * destruct (IH Hin); [by left|]. right. apply elem_of_cons.
        by right.
Qed.

Lemma dict_del_sublist d k : dict_del d k `sublist_of` d.
Proof.
  induction d as [|[k' v'] d IH]; simpl; [done|].
  destruct (String.eqb k k'); [by apply sublist_cons|by apply sublist_skip].
Qed.

Lemma dict_get_del_ne d k k' :
  k ≠ k' → dict_get (dict_del d k) k' = dict_get d k'.
Proof.
  intros Hne. induction d as [|[k0 v0] d IH]; simpl; [done|].
  destruct (String.eqb k k0) eqn:Hk; simpl.
  - apply String.eqb_eq in Hk as <-.
    apply String.eqb_neq in Hne. rewrite String.eqb_sym in Hne.
    by rewrite Hne.
  - by rewrite IH.
Qed.

Lemma dict_get_del_eq d k :
  NoDup (fst <$> d) → dict_get (dict_del d k) k = None.
Proof.
  induction d as [|[k' v'] d IH]; simpl; [done|].
  intros [Hk' Hd]%NoDup_cons.
  destruct (String.eqb k k') eqn:Hk; simpl.
  - apply String.eqb_eq in Hk as ->. by apply dict_get_None.
  - rewrite Hk. by apply IH.
Qed.
End DictFacts.

(** ** The registry, further *)

Lemma list_filter_all {A} (f : A → bool) (l : list A) :
  (∀ x, x ∈ l → f x = true) → List.filter f l = l.
Proof.
  induction l as [|x l IH]; simpl; [done|]. intros Hall.
  rewrite Hall by (apply elem_of_cons; by left).
  rewrite IH; [done|]. intros y Hy. apply Hall, elem_of_cons. by right.
Qed.

Lemma list_filter_none {A} (f : A → bool) (l : list A) :
  (∀ x, x ∈ l → f x = false) → List.filter f l = [].
Proof.
  induction l as [|x l IH]; simpl; [done|]. intros Hall.
  rewrite Hall by (apply elem_of_cons; by left).
  apply IH. intros y Hy. apply Hall, elem_of_cons. by right.
Qed.

Lemma get_all_None m :
  Manager.get_all m None = dict_values (Manager.providers m).
Proof. unfold Manager.get_all. by apply list_filter_all. Qed.

Lemma elem_of_dict_values {V} (d : list (string * V)) v :
  v ∈ dict_values d ↔ ∃ k, (k, v) ∈ d.
Proof.
  unfold dict_values.
  change (map snd d) with (snd <$> d). rewrite list_elem_of_fmap. split.
  - intros ([k v'] & -> & Hin). by exists k.
  - intros (k & Hin). by exists (k, v).
Qed.

Lemma add_registered m l :
  registered_by_name m → registered_by_name (Manager._add m l).
Proof.
  intros [Hkeys Hnames]. unfold Manager._add.
  destruct (Manager.heap m !! l) as [p|] eqn:Hl; [|done].
  split; simpl.
  - by apply dict_set_NoDup.
  - intros k l' [[= -> ->]|Hin]%elem_of_dict_set; eauto.
Qed.

Lemma remove_registered m a :
  registered_by_name m → registered_by_name (Manager._remove m a).
Proof.
  intros [Hkeys Hnames]. unfold Manager._remove.
  destruct (match a with
            | Manager.Obj l => name <$> Manager.heap m !! l
            | Manager.Name s => Some s
            end) as [k|]; [|done].
  destruct (dict_contains (Manager.providers m) k); [|done].
  pose proof (dict_del_sublist (Manager.providers m) k) as Hsub.
  split; simpl.
  - eapply sublist_NoDup; [exact Hkeys|by apply fmap_sublist, Hsub].
  - intros k' l' Hin. apply Hnames. by eapply elem_of_sublist.
Qed.

Lemma set_enabled_registered b m a :
  registered_by_name m → registered_by_name (Manager._set_enabled b m a).
Proof.
  intros [Hkeys Hnames]. unfold Manager._set_enabled.
  destruct (match a with
            | Manager.Obj l => Some l
            | Manager.Name s => dict_get (Manager.providers m) s
            end) as [l|]; [|done].
  split; simpl; [done|].
  intros k l' (p & Hp & Hname)%Hnames.
  destruct (decide (l = l')) as [->|Hne].
  - exists (set_enabled b p). by rewrite lookup_alter_eq, Hp.
  - exists p. by rewrite lookup_alter_ne.
Qed.

Lemma foldl_registered (f : Manager.t → Manager.arg → Manager.t) args :
  (∀ m a, registered_by_name m → registered_by_name (f m a)) →
  ∀ m, registered_by_name m → registered_by_name (foldl f m args).
Proof.
  intros Hf. induction args as [|a args IH]; simpl; eauto.
Qed.

(** X7.  Every operation of the registry keeps it registered by name:
    distinct names, each naming an object that exists and carries that
    name. *)
Theorem registry_stays_registered_by_name (m : Manager.t) :
  registered_by_name m →
  (∀ l, registered_by_name (Manager._add m l))
  ∧ (∀ args, registered_by_name (Manager.remove m args)
             ∧ registered_by_name (Manager.disable m args)
             ∧ registered_by_name (Manager.enable m args))
  ∧ registered_by_name (Manager.remove_all m)
  ∧ registered_by_name (Manager.disable_all m)
  ∧ registered_by_name (Manager.enable_all m).
Proof.
  intros Hm.
  assert (Hargs : ∀ args,
    registered_by_name (Manager.remove m args)
    ∧ registered_by_name (Manager.disable m args)
    ∧ registered_by_name (Manager.enable m args)).
  { intros args. split_and!; apply foldl_registered; try done.
    - apply remove_registered.
    - apply set_enabled_registered.
    - apply set_enabled_registered. }
  split_and!; [intros l; by apply add_registered|done|..];
    unfold Manager.remove_all, Manager.disable_all, Manager.enable_all;
    apply Hargs.
Qed.

Lemma add_then_get_eq m l p :
  Manager.heap m !! l = Some p →
  Manager.get (Manager._add m l) (name p) = Some l.
Proof.
  intros Hl. unfold Manager.get, Manager._add. rewrite Hl. simpl.
  apply dict_get_set_eq.
Qed.

(** X1.  A provider that is added is found under its name, and the
    entries of the other names are as they were. *)
Theorem add_then_get (m : Manager.t) (l : nat) (p : Provider) :
  Manager.heap m !! l = Some p →
  Manager.get (Manager._add m l) (name p) = Some l
  ∧ ∀ k, k ≠ name p → Manager.get (Manager._add m l) k = Manager.get m k.
Proof.
  intros Hl. split; [by apply add_then_get_eq|].
  unfold Manager.get, Manager._add. rewrite Hl. simpl.
  intros k Hk. by apply dict_get_set_ne.
Qed.

(** X2.  The registry lists its providers in the order in which their
    names were first added: a new name goes last, and adding under a name
    that is taken replaces the provider in place. *)
Theorem add_keeps_insertion_order (m : Manager.t) (l : nat) (p : Provider) :
  Manager.heap m !! l = Some p →
  (Manager.get m (name p) = None →
   Manager.get_all (Manager._add m l) None = Manager.get_all m None ++ [l])
  ∧ (Manager.get m (name p) ≠ None →
     fst <$> Manager.providers (Manager._add m l)
     = fst <$> Manager.providers m).
Proof.
  intros Hl. rewrite !get_all_None. unfold Manager.get, Manager._add.
  rewrite Hl. simpl. split.
  - apply dict_set_values_new.
  - intros Hget. rewrite dict_set_keys. unfold dict_contains.
    by destruct (dict_get (Manager.providers m) (name p)).
Qed.

(** X3.  After [_remove], by name or by object, nothing is registered
    under that name, and the other names are as they were. *)
Theorem remove_then_get (m : Manager.t) (a : Manager.arg) (k : string) :
  registered_by_name m →
  key_of m a = Some k →
  Manager.get (Manager._remove m a) k = None
  ∧ ∀ k', k' ≠ k →
      Manager.get (Manager._remove m a) k' = Manager.get m k'.
Proof.
  intros [Hkeys _] Hkey. unfold Manager.get, Manager._remove.
  unfold key_of in Hkey. rewrite Hkey. unfold dict_contains.
  destruct (dict_get (Manager.providers m) k) eqn:Hget; simpl.
  - split; [by apply dict_get_del_eq|].
    intros k' Hne. by apply dict_get_del_ne.
  - done.
Qed.

Lemma set_enabled_twice b (o : option Provider) :
  set_enabled b <$> (set_enabled b <$> o) = set_enabled b <$> o.
Proof. by destruct o. Qed.

(** [disable] or [enable] applied to a list of objects: the dictionary
    stays, and the flag is set on exactly those objects. *)
Lemma set_enabled_objs b ls : ∀ m,
  Manager.providers (foldl (Manager._set_enabled b) m (Manager.Obj <$> ls))
  = Manager.providers m
  ∧ ∀ l,
      Manager.heap (foldl (Manager._set_enabled b) m (Manager.Obj <$> ls))
        !! l
      = if decide (l ∈ ls) then set_enabled b <$> Manager.heap m !! l
        else Manager.heap m !! l.
Proof.
  induction ls as [|l0 ls IH]; intros m; csimpl.
  - split; [done|]. intros l.
    by destruct (decide (l ∈ [])) as [?%elem_of_nil|].
  - destruct (IH (Manager._set_enabled b m (Manager.Obj l0)))
      as [Hd Hh].
    split; [by rewrite Hd|]. intros l. rewrite Hh. simpl.
    destruct (decide (l = l0)) as [->|Hne].
    + rewrite lookup_alter_eq, set_enabled_twice.
      destruct (decide (l0 ∈ l0 :: ls)) as [_|Hout];
        [by destruct (decide (l0 ∈ ls))|].
      exfalso. apply Hout, elem_of_cons. by left.
    + rewrite lookup_alter_ne by done.
      destruct (decide (l ∈ ls)) as [Hin|Hin],
               (decide (l ∈ l0 :: ls)) as [Hin'|Hin']; try done.
      * exfalso. apply Hin', elem_of_cons. by right.
      * by apply elem_of_cons in Hin' as [?|?].
Qed.

Lemma get_all_set_enabled_all b m :
  Manager.get_all
    (foldl (Manager._set_enabled b) m
       (Manager.Obj <$> Manager.get_all m None))
    (Some (negb b)) = [].
Proof.
  destruct (set_enabled_objs b (Manager.get_all m None) m) as [Hd Hh].
  unfold Manager.get_all at 1. rewrite Hd.
  apply list_filter_none. intros l Hl. rewrite Hh.
  rewrite decide_True by (by rewrite get_all_None).
  destruct (Manager.heap m !! l); simpl; [|done]. by destruct b.
Qed.

(** X4.  After [disable_all] no provider is enabled, so a search
    returns the empty list without creating a pool; the providers stay
    registered, in the same order. *)
Theorem disable_all_silences_search (m : Manager.t) :
  Manager.get_all (Manager.disable_all m) (Some true) = []
  ∧ Manager.get_all (Manager.disable_all m) None = Manager.get_all m None
  ∧ ∀ w query limit timeout n_threads,
      Engine.search (Manager.disable_all m) w query limit timeout n_threads
      = (Ok [], []).
Proof.
  assert (Hnone :
    Manager.get_all (Manager.disable_all m) (Some true) = []).
  { apply (get_all_set_enabled_all false). }
  split_and!; [done| |].
  - unfold Manager.disable_all, Manager.disable, Manager._disable.
    destruct (set_enabled_objs false (Manager.get_all m None) m)
      as [Hd _].
    by rewrite get_all_None, Hd, <- get_all_None.
  - intros. unfold Engine.search, Engine.get_providers. rewrite Hnone.
    simpl. by destruct (String.eqb query "").
Qed.

(** X5.  After [enable_all] every registered provider is enabled: the
    enabled providers are all the providers, in registry order, and none
    is disabled. *)
Theorem enable_all_enables_every_provider (m : Manager.t) :
  registered_by_name m →
  Manager.get_all (Manager.enable_all m) (Some true)
  = Manager.get_all m None
  ∧ Manager.get_all (Manager.enable_all m) (Some false) = [].
Proof.
  intros [_ Hnames]. split; [|apply (get_all_set_enabled_all true)].
  unfold Manager.enable_all, Manager.enable, Manager._enable.
  destruct (set_enabled_objs true (Manager.get_all m None) m) as [Hd Hh].
  unfold Manager.get_all at 1. rewrite Hd.
  transitivity (dict_values (Manager.providers m));
    [|by rewrite get_all_None].
  apply list_filter_all. intros l Hl. rewrite Hh.
  rewrite decide_True by (by rewrite get_all_None).
  apply elem_of_dict_values in Hl as [k Hk].
  destruct (Hnames k l Hk) as (p & -> & _). done.
Qed.

Lemma remove_objs d : ∀ h,
  NoDup (fst <$> d) →
  (∀ k l, (k, l) ∈ d → ∃ p, h !! l = Some p ∧ name p = k) →
  foldl Manager._remove (Manager.mk h d) (Manager.Obj <$> dict_values d)
  = Manager.mk h [].
Proof.
  induction d as [|[k l] d IH]; intros h Hkeys Hnames; [done|].
  csimpl. unfold Manager._remove at 2. simpl.
  destruct (Hnames k l) as (p & Hp & Hname); [apply elem_of_cons; by left|].
  rewrite Hp. simpl. rewrite Hname. unfold dict_contains. simpl.
  rewrite String.eqb_refl. apply NoDup_cons in Hkeys as [_ Hkeys].
  apply IH; [done|]. intros k' l' Hin. apply Hnames, elem_of_cons.
  by right.
Qed.

(** X6.  [remove_all] leaves no provider registered; the provider
    objects themselves are not touched. *)
Theorem remove_all_empties_the_registry (m : Manager.t) :
  registered_by_name m →
  Manager.remove_all m = Manager.mk (Manager.heap m) [].
Proof.
  intros [Hkeys Hnames]. unfold Manager.remove_all, Manager.remove.
  rewrite get_all_None. destruct m as [h d]. by apply remove_objs.
Qed.

(** ** Adding providers *)

Section LoadingFacts.
Context {D E : Type} (ld : Loading.loaders D E).

Lemma alloc_fresh m p :
  Manager.heap m !! (Loading.alloc m p).2 = None.
Proof.
  unfold Loading.alloc. simpl. apply not_elem_of_dom, is_fresh.
Qed.

Lemma alloc_keeps m p l q :
  Manager.heap m !! l = Some q →
  Manager.heap (Loading.alloc m p).1 !! l = Some q.
Proof.
  intros Hl. unfold Loading.alloc. simpl. rewrite lookup_insert_ne; [done|].
  intros <-. pose proof (alloc_fresh m p) as Hfresh.
  unfold Loading.alloc in Hfresh. simpl in Hfresh. congruence.
Qed.

Lemma alloc_registered m p :
  registered_by_name m → registered_by_name (Loading.alloc m p).1.
Proof.
  intros [Hkeys Hnames]. split; [done|].
  intros k l (q & Hq & Hname)%Hnames. exists q. split; [|done].
  by apply alloc_keeps.
Qed.

(** What a successful [_add_from_dict] leaves behind. *)
Lemma add_from_dict_ok m d m' :
  Loading._add_from_dict ld m d = inr m' →
  (∀ l q, Manager.heap m !! l = Some q → Manager.heap m' !! l = Some q)
  ∧ (registered_by_name m → registered_by_name m')
  ∧ ∃ l p, Loading.build ld d = inr p
           ∧ Manager.heap m !! l = None
           ∧ Manager.heap m' !! l = Some p
           ∧ Manager.get m' (name p) = Some l.
Proof.
  unfold Loading._add_from_dict.
  destruct (Loading.build ld d) as [e|p] eqn:Hbuild; [done|].
  pose proof (alloc_fresh m p) as Hfresh.
  pose proof (alloc_keeps m p) as Hkeeps.
  pose proof (alloc_registered m p) as Hreg.
  destruct (Loading.alloc m p) as [m1 l] eqn:Halloc. simpl in *.
  assert (Hl : Manager.heap m1 !! l = Some p).
  { unfold Loading.alloc in Halloc. injection Halloc as <- <-. simpl.
    apply lookup_insert_eq. }
  intros [= <-]. split_and!.
  - intros l' q Hq. unfold Manager._add. rewrite Hl. simpl. eauto.
  - intros Hm. by apply add_registered, Hreg.
  - exists l, p. split_and!; try done.
    + unfold Manager._add. by rewrite Hl.
    + by apply add_then_get_eq.
Qed.

Lemma wrap_ok {A} (r : Loading.failure E + A) a :
  Loading.wrap r = Ok a → r = inr a.
Proof. destruct r; simpl; congruence. Qed.

Lemma wrap_raise {A} (r : Loading.failure E + A) e :
  Loading.wrap r = Raise e → e = TorrentSearchEngineError.
Proof. destruct r; simpl; congruence. Qed.

(** X8.  [add] with a dictionary, a URL or a path either registers one
    new provider object, found under its own name, or raises
    [TorrentSearchEngineError] and nothing else; the provider objects
    that existed are not touched, and the registry stays registered by
    name. *)
Theorem add_registers_or_raises (m : Manager.t) (src : Loading.source D) :
  (∀ e, Loading.add ld m src = Raise e →
        e = TorrentSearchEngineError ∧ ∀ l, src ≠ Loading.Instance l)
  ∧ (∀ m', Loading.add ld m src = Ok m' →
       (∀ l q, Manager.heap m !! l = Some q →
               Manager.heap m' !! l = Some q)
       ∧ (registered_by_name m → registered_by_name m')
       ∧ ((∀ l, src ≠ Loading.Instance l) →
          ∃ l p, Manager.heap m !! l = None
                 ∧ Manager.heap m' !! l = Some p
                 ∧ Manager.get m' (name p) = Some l)).
Proof.
  assert (Hdict : ∀ d m',
    Loading._add_from_dict ld m d = inr m' →
    (∀ l q, Manager.heap m !! l = Some q → Manager.heap m' !! l = Some q)
    ∧ (registered_by_name m → registered_by_name m')
    ∧ ∃ l p, Manager.heap m !! l = None
             ∧ Manager.heap m' !! l = Some p
             ∧ Manager.get m' (name p) = Some l).
  { intros d m' (Hkeep & Hreg & l & p & _ & ? & ? & ?)%add_from_dict_ok.
    split_and!; eauto. }
  split.
  - intros e. destruct src as [l|d|s]; simpl; [done| |].
    + intros ->%wrap_raise. by split.
    + destruct (String.prefix "http" s); intros ->%wrap_raise; by split.
  - intros m'. destruct src as [l|d|s]; simpl.
    + intros [= <-]. split_and!.
      * intros l' q Hq. unfold Manager._add.
        by destruct (Manager.heap m !! l).
      * intros Hm. by apply add_registered.
      * intros Hsrc. by destruct (Hsrc l).
    + intros Hok%wrap_ok. destruct (Hdict d m' Hok) as (? & ? & ?).
      by split_and!.
    + unfold Loading._add_from_url, Loading._add_from_file.
      destruct (String.prefix "http" s); intros Hok%wrap_ok.
      * destruct (Loading.load_url ld s) as [e|d]; [done|].
        destruct (Hdict d m' Hok) as (? & ? & ?). by split_and!.
      * destruct (Loading.load_file ld s) as [e|d]; [done|].
        destruct (Hdict d m' Hok) as (? & ? & ?). by split_and!.
Qed.

(** X9.  Through the engine only provider objects can be added:
    [add_provider] with a dictionary, a URL or a path calls
    [add_from_dict], [add_from_url] or [add_from_file], which the
    registry does not have, and so always raises
    [TorrentSearchEngineError], whatever the loaders would have done. *)
Theorem add_provider_loads_nothing (m : Manager.t) :
  (∀ d, Loading.add_provider ld m (Loading.Dict d)
        = Raise TorrentSearchEngineError)
  ∧ (∀ s, Loading.add_provider ld m (Loading.Str s)
          = Raise TorrentSearchEngineError)
  ∧ (∀ l, Loading.add_provider ld m (Loading.Instance l)
          = Ok (Manager._add m l)).
Proof.
  split_and!; [done| |done].
  intros s. simpl. by destruct (String.prefix "http" s).
Qed.
End LoadingFacts.

(** ** The engine, further *)

Lemma get_providers_enabled m p :
  p ∈ Engine.get_providers m (Some true) → enabled p = true.
Proof.
  unfold Engine.get_providers, Manager.get_all.
  intros (l & Hl & Hp)%list_elem_of_omap.
  apply list_elem_of_In, filter_In in Hl as [_ Hl].
  rewrite Hp in Hl. by destruct (enabled p).
Qed.

Section OriginFacts.
Context (w : Engine.world) (query : string) (limit : Z) (timeout : Q)
        (n_threads : Z) (ps : list Provider).

Abbreviation from_ps := (pool_from ps w query limit timeout).

Lemma task_start_from p i :
  p ∈ ps →
  task_from ps query limit
    (Engine.task_start p query limit timeout (Engine.elapsed w i)).1
  ∧ Forall (event_of_call ps w query limit timeout)
      (Engine.task_start p query limit timeout (Engine.elapsed w i)).2.
Proof.
  intros Hp. unfold Engine.task_start. split.
  - destruct (Qle_bool _ _); simpl; [done|].
    intros r Hr. by exists p, (timeout - Engine.elapsed w i)%Q.
  - destruct (Qle_bool _ _); simpl.
    + repeat constructor. simpl. eauto.
    + constructor; [simpl; by eauto|]. constructor; [|done]. simpl.
      split_and!; eauto.
Qed.

Lemma consume_from rest fin : ∀ q,
  (∀ r, r ∈ rest → yielded_by ps query limit r) →
  (∀ r, r ∈ q → yielded_by ps query limit r) →
  ∀ r, r ∈ (Engine.consume limit rest fin q).2 →
       yielded_by ps query limit r.
Proof.
  induction rest as [|t rest IH]; intros q Hrest Hq; simpl; [done|].
  unfold Engine.put_nowait. destruct (Engine.full limit q); [done|].
  apply IH.
  - intros r Hr. apply Hrest, elem_of_cons. by right.
  - intros r [Hr| ->%list_elem_of_singleton]%elem_of_app; [by apply Hq|].
    apply Hrest, elem_of_cons. by left.
Qed.

Lemma step_from pl i :
  from_ps pl → from_ps (Engine.step w query limit timeout n_threads pl i).
Proof.
  intros (Hq & Hts & Hlog). unfold Engine.step.
  destruct (Engine.tasks pl !! i) as [[p|rest fin|res]|] eqn:Hi;
    try done.
  - destruct (Engine.may_start _ _ _); [|done].
    pose proof (Forall_lookup_1 _ _ _ _ Hts Hi) as Hp. simpl in Hp.
    destruct (task_start_from p i Hp) as [Hstart Hevs].
    destruct (Engine.task_start p _ _ _ _) as [ts evs]. simpl in *.
    split_and!; [done|by apply Forall_insert|by apply Forall_app].
  - pose proof (Forall_lookup_1 _ _ _ _ Hts Hi) as Hrest. simpl in Hrest.
    unfold Engine.task_resume. destruct rest as [|t rest]; simpl.
    + split_and!; [done|by apply Forall_insert|done].
    + unfold Engine.put_nowait.
      destruct (Engine.full limit _); simpl.
      * split_and!; [done|by apply Forall_insert|done].
      * split_and!; [|apply Forall_insert; [done|]|done].
        -- intros r [Hr| ->%list_elem_of_singleton]%elem_of_app;
             [by apply Hq|].
           apply Hrest, elem_of_cons. by left.
        -- intros r Hr. apply Hrest, elem_of_cons. by right.
Qed.

Lemma finish_from pl i :
  from_ps pl → from_ps (Engine.finish w query limit timeout pl i).
Proof.
  intros (Hq & Hts & Hlog). unfold Engine.finish.
  destruct (Engine.tasks pl !! i) as [[p|rest fin|res]|] eqn:Hi;
    try done.
  - pose proof (Forall_lookup_1 _ _ _ _ Hts Hi) as Hp. simpl in Hp.
    destruct (task_start_from p i Hp) as [Hstart Hevs].
    destruct (Engine.task_start p _ _ _ _) as [[p'|rest fin|res] evs];
      simpl in *;
      try (split_and!;
             [done|by apply Forall_insert|by apply Forall_app]).
    pose proof (consume_from rest fin (Engine.queue pl) Hstart Hq) as Hc.
    destruct (Engine.consume _ _ _ _). simpl in *.
    split_and!; [done|by apply Forall_insert|by apply Forall_app].
  - pose proof (Forall_lookup_1 _ _ _ _ Hts Hi) as Hrest. simpl in Hrest.
    pose proof (consume_from rest fin (Engine.queue pl) Hrest Hq) as Hc.
    destruct (Engine.consume _ _ _ _). simpl in *.
    split_and!; [done|by apply Forall_insert|done].
Qed.

Lemma run_pool_from :
  from_ps (Engine.run_pool w query limit timeout n_threads ps).
Proof.
  apply run_pool_invariant.
  - split_and!; simpl.
    + by intros r ?%elem_of_nil.
    + apply Forall_fmap, Forall_forall. by intros p Hp.
    + by repeat constructor.
  - apply step_from.
  - apply finish_from.
Qed.
End OriginFacts.

(** What [search] returns when it returns: the sink of the pool,
    de-duplicated and ranked. *)
Lemma search_ok_inv m w query limit timeout n_threads out evs :
  Engine.search m w query limit timeout n_threads = (Ok out, evs) →
  out = [] ∧ evs = []
  ∨ ∃ n,
      let pl := Engine.run_pool w query limit timeout n
                  (Engine.get_providers m (Some true)) in
      out = Engine._sort (foldl merge_item [] (Engine.queue pl))
      ∧ evs = Engine.log pl.
Proof.
  unfold Engine.search.
  destruct (String.eqb query ""); [intros [= <- <-]; by left|].
  destruct (_ =? 0); [intros [= <- <-]; by left|].
  unfold Engine._multithreaded_search.
  match goal with |- context [Engine.run_pool ?w ?q ?l ?t ?n ?ps] =>
    destruct (Engine.first_failure
                (Engine.tasks (Engine.run_pool w q l t n ps)));
    [done|]; intros Hres; right; exists n
  end.
  simpl in Hres. unfold Engine._filter in Hres.
  rewrite filter_loop_spec in Hres. simpl in Hres.
  injection Hres as <- <-. done.
Qed.

(** The log of a search, whether it returns or raises. *)
Lemma search_log_inv m w query limit timeout n_threads :
  (Engine.search m w query limit timeout n_threads).2 = []
  ∨ ∃ n,
      (Engine.search m w query limit timeout n_threads).2
      = Engine.log (Engine.run_pool w query limit timeout n
                      (Engine.get_providers m (Some true))).
Proof.
  unfold Engine.search.
  destruct (String.eqb query ""); [by left|].
  destruct (_ =? 0); [by left|].
  unfold Engine._multithreaded_search.
  match goal with |- context [Engine.run_pool ?w ?q ?l ?t ?n ?ps] =>
    right; exists n;
    by destruct (Engine.first_failure
                   (Engine.tasks (Engine.run_pool w q l t n ps)))
  end.
Qed.

(** X10.  A list that [search] returns is ranked and free of
    duplicates: the seed counts never increase along it and no two of
    its records have the same title. *)
Theorem search_result_is_ranked_and_distinct (m : Manager.t)
    (w : Engine.world) (query : string) (limit : Z) (timeout : Q)
    (n_threads : option Z) (out : list Torrent)
    (evs : list Engine.event) :
  Engine.search m w query limit timeout n_threads = (Ok out, evs) →
  StronglySorted (fun a b => seeds b ≤ seeds a) out
  ∧ NoDup (title <$> out).
Proof.
  intros [[-> _]|(n & -> & _)]%search_ok_inv.
  - split; constructor.
  - split; [apply sorted_reverse_sorted|].
    unfold Engine._sort. rewrite sorted_reverse_perm, filter_titles.
    apply NoDup_first_occurrences.
Qed.

(** X11.  [search] returns nothing of its own making: every record of
    the result was yielded, for the caller's query and limit, by a
    provider that is registered and enabled. *)
Theorem search_returns_yielded_records (m : Manager.t) (w : Engine.world)
    (query : string) (limit : Z) (timeout : Q) (n_threads : option Z)
    (out : list Torrent) (evs : list Engine.event) :
  Engine.search m w query limit timeout n_threads = (Ok out, evs) →
  ∀ r, r ∈ out →
    ∃ p tmo, p ∈ Engine.get_providers m (Some true)
             ∧ enabled p = true
             ∧ r ∈ yields (search p query limit tmo).
Proof.
  intros [[-> _]|(n & -> & _)]%search_ok_inv r Hr.
  { by apply elem_of_nil in Hr. }
  unfold Engine._sort in Hr. rewrite sorted_reverse_perm in Hr.
  apply filter_best in Hr as [Hr _].
  destruct (run_pool_from w query limit timeout n
              (Engine.get_providers m (Some true))) as (Hq & _ & _).
  destruct (Hq r Hr) as (p & tmo & Hp & Hy).
  exists p, tmo. split_and!; [done| |done].
  by eapply get_providers_enabled.
Qed.

(** X12.  Whatever a search does, it does with the enabled providers:
    every task and every provider search in its log is that of an
    enabled provider, and each provider search is given the caller's
    query and limit and the timeout less a reading of the clock. *)
Theorem only_enabled_providers_are_searched (m : Manager.t)
    (w : Engine.world) (query : string) (limit : Z) (timeout : Q)
    (n_threads : option Z) :
  Forall (event_of_call (Engine.get_providers m (Some true)) w query
            limit timeout)
    (Engine.search m w query limit timeout n_threads).2
  ∧ ∀ p, p ∈ Engine.get_providers m (Some true) → enabled p = true.
Proof.
  split; [|intros p; apply get_providers_enabled].
  destruct (search_log_inv m w query limit timeout n_threads)
    as [->|[n ->]]; [constructor|].
  by destruct (run_pool_from w query limit timeout n
                 (Engine.get_providers m (Some true))) as (_ & _ & ?).
Qed.

Section LogFacts.
Context (w : Engine.world) (query : string) (limit : Z) (timeout : Q)
        (n_threads : Z).

(** A property of the events that holds of the creation of the pool
    and of whatever a task logs when it starts holds of the whole log. *)
Lemma run_pool_log (good : Engine.event → Prop) ps :
  good (Engine.EvPool n_threads) →
  (∀ p i,
     Forall good
       (Engine.task_start p query limit timeout (Engine.elapsed w i)).2) →
  Forall good
    (Engine.log (Engine.run_pool w query limit timeout n_threads ps)).
Proof.
  intros Hpool Hstart.
  apply (run_pool_invariant w query limit timeout n_threads
           (fun pl => Forall good (Engine.log pl))).
  - by repeat constructor.
  - intros pl i Hlog. unfold Engine.step.
    destruct (Engine.tasks pl !! i) as [[p|rest fin|res]|]; try done.
    + destruct (Engine.may_start _ _ _); [|done].
      specialize (Hstart p i).
      destruct (Engine.task_start _ _ _ _ _). simpl in *.
      by apply Forall_app.
    + by destruct (Engine.task_resume _ _ _ _).
  - intros pl i Hlog. unfold Engine.finish.
    destruct (Engine.tasks pl !! i) as [[p|rest fin|res]|]; try done.
    + specialize (Hstart p i).
      destruct (Engine.task_start _ _ _ _ _) as [[p'|rest fin|res] evs];
        simpl in *; try by apply Forall_app.
      destruct (Engine.consume _ _ _ _). simpl. by apply Forall_app.
    + by destruct (Engine.consume _ _ _ _).
Qed.
End LogFacts.

Lemma default_threads_bounds w n_providers :
  match Engine.cpu_count w with Some c => 0 ≤ c | None => True end →
  1 ≤ n_providers →
  1 ≤ Engine.default_threads w n_providers ≤ n_providers.
Proof.
  intros Hcpu Hn. unfold Engine.default_threads.
  destruct (Engine.cpu_count w) as [c|].
  - destruct (c =? 0) eqn:Hc;
      destruct (n_providers <? _) eqn:Hlt; lia.
  - destruct (n_providers <? _) eqn:Hlt; lia.
Qed.

(** X13.  When [os.cpu_count()] is [None] or a count, the pool of a
    search is created with at least one worker: with the caller's
    [n_threads] when that is one or more, and otherwise with no more
    workers than there are enabled providers. *)
Theorem pool_has_a_worker (m : Manager.t) (w : Engine.world)
    (query : string) (limit : Z) (timeout : Q) (n_threads : option Z) :
  match Engine.cpu_count w with Some c => 0 ≤ c | None => True end →
  Forall (pool_size_ok n_threads
            (Z.of_nat (length (Engine.get_providers m (Some true)))))
    (Engine.search m w query limit timeout n_threads).2.
Proof.
  intros Hcpu. unfold Engine.search.
  destruct (String.eqb query ""); [constructor|].
  destruct (_ =? 0) eqn:Hnone; [constructor|].
  apply Z.eqb_neq in Hnone.
  set (np := Z.of_nat (length (Engine.get_providers m (Some true)))) in *.
  assert (Hnp : 1 ≤ np) by (unfold np in *; lia).
  pose proof (default_threads_bounds w np Hcpu Hnp) as Hdef.
  unfold Engine._multithreaded_search.
  match goal with |- context [Engine.run_pool ?w ?q ?l ?t ?n ?ps] =>
    assert (Forall (pool_size_ok n_threads np)
              (Engine.log (Engine.run_pool w q l t n ps))) as Hlog;
    [|by destruct (Engine.first_failure _)]
  end.
  apply run_pool_log.
  - simpl. destruct n_threads as [g|]; [|lia].
    destruct (g <? 1) eqn:Hg; lia.
  - intros p i. unfold Engine.task_start.
    destruct (Qle_bool _ _); by repeat constructor.
Qed.

Lemma first_failure_idle ts :
  Forall idle ts → Engine.first_failure ts = None.
Proof.
  induction 1 as [|[p|rest fin|[e|]] ts Hidle _ IH]; simpl; done.
Qed.

Lemma budget_spent timeout e :
  (timeout <= 1 # 100)%Q → (0 <= e)%Q →
  Qle_bool (timeout - e) (1 # 100) = true.
Proof. intros Ht He. apply Qle_bool_iff. lra. Qed.

(** X14.  With a timeout of 0.01 s or less, and a clock that does not
    run backwards, [search] asks no provider and returns the empty
    list. *)
Theorem spent_timeout_searches_nothing (m : Manager.t) (w : Engine.world)
    (query : string) (limit : Z) (timeout : Q) (n_threads : option Z) :
  (timeout <= 1 # 100)%Q →
  (∀ i, (0 <= Engine.elapsed w i)%Q) →
  (Engine.search m w query limit timeout n_threads).1 = Ok []
  ∧ Forall (fun ev => is_provider_search ev = false)
      (Engine.search m w query limit timeout n_threads).2.
Proof.
  intros Ht He. unfold Engine.search.
  destruct (String.eqb query ""); [by split; [|constructor]|].
  destruct (_ =? 0); [by split; [|constructor]|].
  unfold Engine._multithreaded_search.
  match goal with |- context [Engine.run_pool ?w ?q ?l ?t ?n ?ps] =>
    assert (Engine.queue (Engine.run_pool w q l t n ps) = []
            ∧ Forall idle (Engine.tasks (Engine.run_pool w q l t n ps))
            ∧ Forall (fun ev => is_provider_search ev = false)
                (Engine.log (Engine.run_pool w q l t n ps)))
      as (Hq & Hts & Hlog)
  end.
  { apply (run_pool_invariant _ _ _ _ _
             (fun pl => Engine.queue pl = []
                        ∧ Forall idle (Engine.tasks pl)
                        ∧ Forall (fun ev => is_provider_search ev = false)
                            (Engine.log pl))).
    - split_and!; [done| |by repeat constructor].
      apply Forall_fmap, Forall_forall. by intros p _.
    - intros pl i (Hq & Hts & Hlog). unfold Engine.step.
      destruct (Engine.tasks pl !! i) as [[p|rest fin|res]|] eqn:Hi;
        try done.
      + destruct (Engine.may_start _ _ _); [|done].
        unfold Engine.task_start.
        rewrite budget_spent by done. simpl.
        split_and!; [done|by apply Forall_insert|].
        apply Forall_app. by repeat constructor.
      + by pose proof (Forall_lookup_1 _ _ _ _ Hts Hi).
    - intros pl i (Hq & Hts & Hlog). unfold Engine.finish.
      destruct (Engine.tasks pl !! i) as [[p|rest fin|res]|] eqn:Hi;
        try done.
      + unfold Engine.task_start.
        rewrite budget_spent by done. simpl.
        split_and!; [done|by apply Forall_insert|].
        apply Forall_app. by repeat constructor.
      + by pose proof (Forall_lookup_1 _ _ _ _ Hts Hi). }
  rewrite (first_failure_idle _ Hts), Hq. by split.
Qed.

(** ** The provider, further *)

Section ProviderMore.
Context {Selector Element : Type}.
Context (ext : TorrentProvider.externals Selector Element)
        (self : TorrentProvider.config Selector).

(** X17.  [_format_search_path] never returns a path, and ends with the
    first error on its way: what [re.sub] raises when the whitespace
    character is not a well-formed replacement; else the
    [NotSupportedError] of the category lookup; else, when the category
    has a fragment, [FormatError] for a [KeyError] of its formatting and
    any other error of that formatting as it is; and when nothing before
    raised, the [UnboundLocalError] of reading [path], which no statement
    has assigned. *)
Theorem format_search_path_outcome (query : string)
    (category : option string) :
  (∀ path, TorrentProvider._format_search_path ext self query category
           ≠ Ok path)
  ∧ (∀ e, TorrentProvider._get_category_path self category = Raise e →
          e = NotSupportedError)
  ∧ match normalized_query ext self query with
    | Raise e =>
        TorrentProvider._format_search_path ext self query category
        = Raise e
    | Ok q =>
        match TorrentProvider._get_category_path self category with
        | Raise e =>
            TorrentProvider._format_search_path ext self query category
            = Raise e
        | Ok None =>
            TorrentProvider._format_search_path ext self query category
            = Raise UnboundLocalError
        | Ok (Some fragment) =>
            match TorrentProvider.str_format ext fragment
                    [("query", Some q)] with
            | Ok _ =>
                TorrentProvider._format_search_path ext self query
                  category
                = Raise UnboundLocalError
            | Raise KeyError =>
                TorrentProvider._format_search_path ext self query
                  category
                = Raise FormatError
            | Raise e =>
                TorrentProvider._format_search_path ext self query
                  category
                = Raise e
            end
        end
    end.
Proof.
  unfold TorrentProvider._format_search_path.
  fold (normalized_query ext self query).
  assert (Hcat : ∀ e,
    TorrentProvider._get_category_path self category = Raise e →
    e = NotSupportedError).
  { unfold TorrentProvider._get_category_path. intros e.
    destruct (TorrentProvider.categories self) as [[|c cs]|];
      repeat case_match; congruence. }
  destruct (normalized_query ext self query) as [q|e]; simpl;
    [|by split_and!].
  destruct (TorrentProvider._get_category_path self category)
    as [[fragment|]|e] eqn:Hget; simpl.
  - destruct (TorrentProvider.str_format ext fragment _) as [f|e];
      simpl; [by split_and!|].
    destruct e; by split_and!.
  - by split_and!.
  - by split_and!.
Qed.

(** X22.  The item loop of a page yields only records that the
    constructor built from item nodes of that page, in the order of the
    nodes and at most one for each; it requests nothing, and a
    [ValueError] never leaves it. *)
Theorem yield_items_yields_built_records (items : list Element) :
  let run := TorrentProvider.yield_items ext self items in
  yielded run.1 `sublist_of`
    omap (fun item =>
            match TorrentProvider.Torrent_new ext
                    (TorrentProvider._get_torrent_data ext self item) with
            | Ok t => Some t
            | Raise _ => None
            end) items
  ∧ (run.2 = None →
     yielded run.1
     = omap (fun item =>
               match TorrentProvider.Torrent_new ext
                       (TorrentProvider._get_torrent_data ext self item)
               with
               | Ok t => Some t
               | Raise _ => None
               end) items)
  ∧ request_timeouts run.1 = []
  ∧ run.2 ≠ Some ValueError.
Proof.
  cbv zeta. induction items as [|item items (IH1 & IH2 & IH3 & IH4)].
  { by split_and!. }
  cbn [TorrentProvider.yield_items omap list_omap].
  destruct (TorrentProvider.Torrent_new ext
              (TorrentProvider._get_torrent_data ext self item))
    as [t|e].
  - destruct (TorrentProvider.yield_items ext self items) as [evs r].
    simpl in *. split_and!; try done.
    + by apply sublist_skip.
    + intros Hr. by rewrite IH2.
  - destruct e; simpl; try (split_and!; [apply sublist_nil_l|done..]).
    by split_and!.
Qed.
End ProviderMore.

Section LoopMore.
Context {Selector Element : Type}.
Context (ext : TorrentProvider.externals Selector Element)
        (self : TorrentProvider.config Selector).
Context (limit : option Z) (timeout : option Q) (start_time : Q).

Abbreviation loop :=
  (TorrentProvider.search_loop ext self limit timeout start_time).

Lemma yielded_app evs1 evs2 :
  yielded (evs1 ++ evs2) = yielded evs1 ++ yielded evs2.
Proof. unfold yielded. apply omap_app. Qed.

Lemma fetch_yields_nothing u hdrs tmo :
  yielded (TorrentProvider.fetch ext self u hdrs tmo).2 = [].
Proof. by destruct (fetch_events ext self u hdrs tmo) as [u' ->]. Qed.

Lemma yield_items_count items :
  (length (yielded (TorrentProvider.yield_items ext self items).1)
   ≤ length items)%nat.
Proof.
  induction items as [|item items IH]; [done|].
  cbn [TorrentProvider.yield_items].
  destruct (TorrentProvider.Torrent_new ext
              (TorrentProvider._get_torrent_data ext self item))
    as [t|e].
  - destruct (TorrentProvider.yield_items ext self items). simpl in *.
    lia.
  - destruct e; simpl; lia.
Qed.

(** The records of a run are no more than the quota it starts with,
    when a limit was asked for. *)
Lemma loop_yields_within_quota lim fuel : ∀ path r tick,
  limit = Some lim → lim ≠ 0 →
  selection_is_limited ext →
  Z.of_nat (length (yielded (loop fuel path (Some r) tick).1))
  ≤ Z.max 0 r.
Proof.
  induction fuel as [|fuel IH]; intros path r tick Hlim Hne Hsel;
    [simpl; lia|].
  rewrite search_loop_S, Hlim, loop_guard_spec.
  assert ((lim =? 0) = false) as -> by (by apply Z.eqb_neq).
  destruct (TorrentProvider.truthy path); [|simpl; lia].
  destruct (0 <? r) eqn:Hr; [|simpl; lia].
  cbn [andb orb]. apply Z.ltb_lt in Hr.
  pose proof (fetch_yields_nothing (default "" path)
                (TorrentProvider.headers self)
                (budget ext timeout start_time tick)) as Hfetch.
  destruct (TorrentProvider.fetch _ _ _ _ _) as [response evs_fetch].
  simpl in Hfetch.
  destruct response as [text|e];
    [|cbn [fst]; rewrite Hfetch; simpl; lia].
  destruct (TorrentProvider.Scraper ext text) as [scraper|e];
    [|destruct e; cbn [fst]; rewrite Hfetch; simpl; lia].
  cbv zeta.
  pose proof (Hsel scraper (TorrentProvider.items_selector self) r Hr)
    as Hitems.
  pose proof (yield_items_count
                (TorrentProvider.select_elements ext scraper
                   (TorrentProvider.items_selector self) (Some r)))
    as Hcount.
  destruct (TorrentProvider.yield_items ext self _) as [evs_items [e|]];
    simpl in Hcount.
  { cbn [fst]. rewrite yielded_app, Hfetch. simpl. lia. }
  specialize (IH (TorrentProvider.select_one ext scraper
                    (TorrentProvider.next_page_selector self))
                 (r - Z.of_nat (length
                    (TorrentProvider.select_elements ext scraper
                       (TorrentProvider.items_selector self) (Some r))))
                 (if timeout is Some _ then S tick else tick)
                 Hlim Hne Hsel).
  rewrite Hlim in IH.
  destruct (TorrentProvider.search_loop _ _ _ _ _ fuel _ _ _)
    as [evs o]. cbn [fst] in *.
  rewrite !yielded_app, Hfetch, !length_app. simpl. lia.
Qed.
End LoopMore.

(** X19.  A search with a limit yields at most that many records, over
    all its pages, provided [select_elements] returns no more nodes
    than it is asked for: the quota that is left bounds what the rest
    of the run yields. *)
Theorem provider_yields_at_most_limit {Selector Element : Type}
    (ext : TorrentProvider.externals Selector Element)
    (self : TorrentProvider.config Selector)
    (lim : Z) (timeout : option Q) (start_time : Q) (fuel : nat)
    (path : option string) (r : Z) (tick : nat) :
  lim ≠ 0 →
  selection_is_limited ext →
  Z.of_nat (length (yielded
    (TorrentProvider.search_loop ext self (Some lim) timeout start_time
       fuel path (Some r) tick).1))
  ≤ Z.max 0 r.
Proof. intros. by eapply loop_yields_within_quota. Qed.

Section LoopEnd.
Context {Selector Element : Type}.
Context (ext : TorrentProvider.externals Selector Element)
        (self : TorrentProvider.config Selector).
Context (limit : option Z) (timeout : option Q) (start_time : Q).

Abbreviation run_loop :=
  (TorrentProvider.search_loop ext self limit timeout start_time).

(** X23.  The walk ends with the page after which there is nothing to
    go on with: when a page is fetched, parsed and its records yielded,
    and the page has no next-page link (none, or an empty one) or the
    quota of a limited search is used up, the loop returns after that
    page without another request. *)
Theorem loop_ends_after_last_page (fuel : nat) (path : option string)
    (r : Z) (tick : nat) (text : string) (scraper : Element)
    (evs : list TorrentProvider.pevent) :
  TorrentProvider.loop_guard path limit (Some r) = Ok true →
  (TorrentProvider.fetch ext self (default "" path)
     (TorrentProvider.headers self)
     (budget ext timeout start_time tick)).1 = Ok text →
  TorrentProvider.Scraper ext text = Ok scraper →
  TorrentProvider.yield_items ext self
    (TorrentProvider.select_elements ext scraper
       (TorrentProvider.items_selector self) (Some r)) = (evs, None) →
  TorrentProvider.truthy
    (TorrentProvider.select_one ext scraper
       (TorrentProvider.next_page_selector self)) = false
  ∨ (∃ lim, limit = Some lim ∧ lim ≠ 0
            ∧ r ≤ Z.of_nat (length
                    (TorrentProvider.select_elements ext scraper
                       (TorrentProvider.items_selector self) (Some r)))) →
  run_loop (S (S fuel)) path (Some r) tick
  = ((TorrentProvider.fetch ext self (default "" path)
        (TorrentProvider.headers self)
        (budget ext timeout start_time tick)).2 ++ evs,
     TorrentProvider.Returned).
Proof.
  intros Hguard Hfetch Hparse Hitems Hlast.
  rewrite (search_loop_page ext self limit timeout start_time (S fuel)
             path r tick text scraper evs) by done.
  cbv zeta. rewrite search_loop_S.
  assert (TorrentProvider.loop_guard
            (TorrentProvider.select_one ext scraper
               (TorrentProvider.next_page_selector self))
            limit
            (Some (r - Z.of_nat (length
               (TorrentProvider.select_elements ext scraper
                  (TorrentProvider.items_selector self) (Some r)))))
          = Ok false) as ->.
  { destruct Hlast as [Hnext|(lim & -> & Hne & Hspent)].
    - unfold TorrentProvider.loop_guard. by rewrite Hnext.
    - rewrite loop_guard_spec.
      assert ((lim =? 0) = false) as -> by (by apply Z.eqb_neq).
      assert ((0 <? r - Z.of_nat (length
                 (TorrentProvider.select_elements ext scraper
                    (TorrentProvider.items_selector self) (Some r))))
              = false) as -> by (apply Z.ltb_ge; lia).
      by rewrite andb_false_r. }
  simpl. by rewrite app_nil_r.
Qed.

(** The number of pages given to [search_loop] does not shape a run
    that is over: a run that returns or raises within some number of
    pages is the same run under any larger number. *)
Lemma finished_run_is_independent_of_fuel (fuel : nat) :
  ∀ path remaining tick evs o fuel',
    TorrentProvider.search_loop ext self limit timeout start_time
      fuel path remaining tick = (evs, o) →
    o ≠ TorrentProvider.OutOfFuel →
    (fuel ≤ fuel')%nat →
    TorrentProvider.search_loop ext self limit timeout start_time
      fuel' path remaining tick = (evs, o).
Proof.
  induction fuel as [|fuel IH];
    intros path remaining tick evs o fuel' Hrun Ho Hle.
  { simpl in Hrun. by injection Hrun as <- <-. }
  destruct fuel' as [|fuel']; [lia|].
  rewrite search_loop_S in Hrun |- *.
  destruct (TorrentProvider.loop_guard path limit remaining)
    as [[|]|e]; try done.
  destruct (TorrentProvider.fetch _ _ _ _ _) as [[text|e] evs_fetch];
    [|done].
  destruct (TorrentProvider.Scraper ext text) as [scraper|e]; [|done].
  cbv zeta in *.
  destruct (TorrentProvider.yield_items ext self _)
    as [evs_items [e|]]; [done|].
  destruct remaining as [r|]; [|done].
  destruct (TorrentProvider.search_loop _ _ _ _ _ fuel _ _ _)
    as [evs1 o1] eqn:Hrest.
  injection Hrun as <- <-.
  by rewrite (IH _ _ _ _ _ fuel' Hrest Ho) by lia.
Qed.
End LoopEnd.

(** ** The field dictionaries *)

Lemma dict_set_new {V} (d : list (string * V)) k v :
  dict_get d k = None → dict_set d k v = d ++ [(k, v)].
Proof.
  induction d as [|[k' v'] d IH]; simpl; [done|].
  destruct (String.eqb k k'); [done|]. intros Hget. by rewrite IH.
Qed.

(** A dictionary filled key by key from a list of distinct keys is that
    list, value by value. *)
Lemma foldl_dict_set {S V} (g : string → S → V) (sels : list (string * S)) :
  ∀ acc,
    NoDup ((fst <$> acc) ++ (fst <$> sels)) →
    foldl (fun props '(key, selector) =>
             dict_set props key (g key selector)) acc sels
    = acc ++ ((fun '(key, selector) => (key, g key selector)) <$> sels).
Proof.
  induction sels as [|[k sel] sels IH]; intros acc Hnodup; csimpl.
  - by rewrite app_nil_r.
  - assert (dict_get acc k = None) as Hnew.
    { apply dict_get_None. apply NoDup_app in Hnodup as (_ & Hdisj & _).
      intros Hk. apply (Hdisj k Hk). csimpl. apply elem_of_cons.
      by left. }
    rewrite dict_set_new by done. rewrite IH.
    + by rewrite <- (assoc_L (++)).
    + rewrite fmap_app. csimpl. rewrite <- (assoc_L (++)). by csimpl.
Qed.

Lemma filled_dict_get {S V} (g : string → S → V)
    (sels : list (string * S)) key selector :
  NoDup (fst <$> sels) → (key, selector) ∈ sels →
  dict_get ((fun '(key, selector) => (key, g key selector)) <$> sels) key
  = Some (g key selector).
Proof.
  intros Hnodup Hin. apply elem_of_dict_get.
  - rewrite <- list_fmap_compose.
    erewrite list_fmap_ext; [exact Hnodup|]. by intros i [k s] _.
  - apply list_elem_of_fmap. by exists (key, selector).
Qed.

Lemma filled_dict_keys {S V} (g : string → S → V)
    (sels : list (string * S)) :
  fst <$> ((fun '(key, selector) => (key, g key selector)) <$> sels)
  = fst <$> sels.
Proof.
  rewrite <- list_fmap_compose. apply list_fmap_ext. by intros i [k s] _.
Qed.

Lemma dict_get_filter_ne {V} (d : list (string * V)) k0 k :
  k ≠ k0 →
  dict_get (List.filter (fun kv => negb (String.eqb kv.1 k0)) d) k
  = dict_get d k.
Proof.
  intros Hk. induction d as [|[k' v'] d IH]; simpl; [done|].
  destruct (String.eqb k' k0) eqn:Hk'; simpl.
  - apply String.eqb_eq in Hk' as ->.
    apply String.eqb_neq in Hk. by rewrite Hk.
  - by rewrite IH.
Qed.

Lemma filter_keys {V} (d : list (string * V)) k0 :
  fst <$> List.filter (fun kv => negb (String.eqb kv.1 k0)) d
  = List.filter (fun k => negb (String.eqb k k0)) (fst <$> d).
Proof.
  induction d as [|[k' v'] d IH]; csimpl; [done|].
  destruct (String.eqb k' k0); csimpl; by rewrite IH.
Qed.

(** A dictionary that starts with one entry and is then filled key by
    key from a list of distinct keys: the first entry keeps its place,
    with the value the list has for its key when it has one, and the
    other keys follow in the order of the list. *)
Lemma foldl_dict_set_from {S V} (g : string → S → V) k0 :
  ∀ (sels : list (string * S)) v0 acc,
    NoDup (fst <$> sels) →
    (∀ k, k ∈ fst <$> acc → k ∉ fst <$> sels) →
    foldl (fun props '(key, selector) =>
             dict_set props key (g key selector)) ((k0, v0) :: acc) sels
    = (k0, default v0
             (dict_get ((fun '(key, selector) => (key, g key selector))
                        <$> sels) k0))
      :: acc
      ++ List.filter (fun kv => negb (String.eqb kv.1 k0))
           ((fun '(key, selector) => (key, g key selector)) <$> sels).
Proof.
  induction sels as [|[k sel] sels IH]; intros v0 acc Hnodup Hdisj; csimpl.
  - by rewrite app_nil_r.
  - apply NoDup_cons in Hnodup as [Hk Hnodup].
    destruct (String.eqb k k0) eqn:Hk0.
    + apply String.eqb_eq in Hk0 as ->. rewrite String.eqb_refl. csimpl.
      rewrite IH; [|done|].
      * assert (dict_get ((fun '(key, selector) => (key, g key selector))
                          <$> sels) k0 = None) as ->; [|done].
        apply dict_get_None. by rewrite filled_dict_keys.
      * intros k' Hk'. specialize (Hdisj k' Hk').
        csimpl in Hdisj. by apply not_elem_of_cons in Hdisj as [_ ?].
    + rewrite String.eqb_sym, Hk0. csimpl.
      assert (dict_get acc k = None) as Hnew.
      { apply dict_get_None. intros Hin. apply (Hdisj k Hin). csimpl.
        apply elem_of_cons. by left. }
      rewrite dict_set_new by done. rewrite IH; [|done|].
      * by rewrite <- (assoc_L (++)).
      * intros k' Hk'. rewrite fmap_app in Hk'. csimpl in Hk'.
        apply elem_of_app in Hk' as [Hk'|Hk'].
        -- specialize (Hdisj k' Hk'). csimpl in Hdisj.
           by apply not_elem_of_cons in Hdisj as [_ ?].
        -- apply list_elem_of_singleton in Hk' as ->. done.
Qed.

Section FieldFacts.
Context {Selector Element : Type}.
Context (ext : TorrentProvider.externals Selector Element)
        (self : TorrentProvider.config Selector).

(** X20.  [_get_torrent_data] gives the provider first and then one
    field for each configured selector, under the selector's key and in
    the configured order: what that selector selects in the item node,
    the details link ([info_url]) made absolute.  A selector under the
    key ["provider"] takes the place of the provider. *)
Theorem torrent_data_fields (element : Element) :
  NoDup (fst <$> TorrentProvider.list_item_selectors self) →
  fst <$> TorrentProvider._get_torrent_data ext self element
  = "provider"
    :: List.filter (fun key => negb (String.eqb key "provider"))
         (fst <$> TorrentProvider.list_item_selectors self)
  ∧ (∀ key selector,
       (key, selector) ∈ TorrentProvider.list_item_selectors self →
       dict_get (TorrentProvider._get_torrent_data ext self element) key
       = Some (TorrentProvider.Selected
                 (if String.eqb key "info_url"
                  then absolute ext self
                         (TorrentProvider.select_one ext element selector)
                  else TorrentProvider.select_one ext element selector)))
  ∧ ("provider" ∉ fst <$> TorrentProvider.list_item_selectors self →
     dict_get (TorrentProvider._get_torrent_data ext self element)
       "provider"
     = Some (TorrentProvider.Self (TorrentProvider.name self))).
Proof.
  intros Hnodup. unfold TorrentProvider._get_torrent_data.
  set (g := fun (_ : string) selector =>
              TorrentProvider.Selected
                (TorrentProvider.select_one ext element selector)).
  set (filled := (fun '(key, selector) => (key, g key selector))
                 <$> TorrentProvider.list_item_selectors self).
  assert (Hfold :
    foldl (fun props '(key, selector) =>
             dict_set props key
               (TorrentProvider.Selected
                  (TorrentProvider.select_one ext element selector)))
      [("provider", TorrentProvider.Self (TorrentProvider.name self))]
      (TorrentProvider.list_item_selectors self)
    = ("provider",
       default (TorrentProvider.Self (TorrentProvider.name self))
         (dict_get filled "provider"))
      :: List.filter (fun kv => negb (String.eqb kv.1 "provider")) filled).
  { apply (foldl_dict_set_from g "provider"
             (TorrentProvider.list_item_selectors self)
             (TorrentProvider.Self (TorrentProvider.name self)) []
             Hnodup).
    intros k Hk. by apply elem_of_nil in Hk. }
  rewrite Hfold. clear Hfold.
  set (props := (_ :: List.filter _ filled)).
  assert (Hkeys : fst <$> props
                  = "provider"
                    :: List.filter
                         (fun key => negb (String.eqb key "provider"))
                         (fst <$> TorrentProvider.list_item_selectors self)).
  { subst props. csimpl. f_equal.
    rewrite (filter_keys filled "provider"). subst filled.
    by rewrite filled_dict_keys. }
  assert (Hfilled : ∀ key selector,
    (key, selector) ∈ TorrentProvider.list_item_selectors self →
    dict_get filled key = Some (g key selector)).
  { intros key selector Hin. by apply (filled_dict_get g). }
  assert (Hget : ∀ key selector,
    (key, selector) ∈ TorrentProvider.list_item_selectors self →
    dict_get props key
    = Some (TorrentProvider.Selected
              (TorrentProvider.select_one ext element selector))).
  { intros key selector Hin. subst props. simpl.
    destruct (String.eqb key "provider") eqn:Hkey.
    - apply String.eqb_eq in Hkey as ->. by rewrite (Hfilled _ _ Hin).
    - apply String.eqb_neq in Hkey.
      rewrite dict_get_filter_ne by done. by apply Hfilled. }
  assert (Hprov :
    "provider" ∉ fst <$> TorrentProvider.list_item_selectors self →
    dict_get props "provider"
    = Some (TorrentProvider.Self (TorrentProvider.name self))).
  { intros Hnot. subst props. simpl.
    assert (dict_get filled "provider" = None) as ->; [|done].
    apply dict_get_None. subst filled. by rewrite filled_dict_keys. }
  assert (Hinfo :
    dict_get props "info_url" = None
    ∨ ∃ selector,
        ("info_url", selector) ∈ TorrentProvider.list_item_selectors self).
  { subst props. simpl. rewrite dict_get_filter_ne by done.
    destruct (dict_get filled "info_url") as [x|] eqn:Hx; [|by left].
    right. apply dict_get_elem_of in Hx. subst filled.
    apply list_elem_of_fmap in Hx as ([k sel] & [= <- _] & Hin).
    by exists sel. }
  clearbody props.
  destruct Hinfo as [Hnone|[sel Hsel]].
  - rewrite Hnone. simpl. split_and!; [done| |done].
    intros key selector Hin. rewrite (Hget _ _ Hin).
    destruct (String.eqb key "info_url") eqn:Hkey; [|done].
    apply String.eqb_eq in Hkey as ->.
    by rewrite (Hget _ _ Hin) in Hnone.
  - rewrite (Hget _ _ Hsel).
    assert (Hsame : ∀ selector,
      ("info_url", selector) ∈ TorrentProvider.list_item_selectors self →
      TorrentProvider.select_one ext element selector
      = TorrentProvider.select_one ext element sel).
    { intros selector Hin. pose proof (Hget _ _ Hin) as H1.
      rewrite (Hget _ _ Hsel) in H1. by injection H1. }
    destruct (TorrentProvider.truthy _ && _) eqn:Hrel.
    + split_and!.
      * rewrite dict_set_keys. unfold dict_contains.
        by rewrite (Hget _ _ Hsel).
      * intros key selector Hin.
        destruct (String.eqb key "info_url") eqn:Hkey.
        -- apply String.eqb_eq in Hkey as ->. rewrite dict_get_set_eq.
           rewrite (Hsame _ Hin). unfold absolute. by rewrite Hrel.
        -- apply String.eqb_neq in Hkey.
           rewrite dict_get_set_ne by done. by apply Hget.
      * intros Hnot. rewrite dict_get_set_ne by done. by apply Hprov.
    + split_and!; [done| |done].
      intros key selector Hin. rewrite (Hget _ _ Hin).
      destruct (String.eqb key "info_url") eqn:Hkey; [|done].
      apply String.eqb_eq in Hkey as ->.
      rewrite (Hsame _ Hin). unfold absolute. by rewrite Hrel.
Qed.
End FieldFacts.

Lemma foldl_pointwise {A B} (f g : A → B → A) (l : list B) :
  (∀ a b, f a b = g a b) → ∀ a, foldl f a l = foldl g a l.
Proof.
  intros Hfg. induction l as [|b l IH]; intros a; simpl; [done|].
  by rewrite Hfg, IH.
Qed.

Section DetailFacts.
Context {Selector Element : Type}.
Context (ext : TorrentProvider.externals Selector Element)
        (self : TorrentProvider.config Selector).

(** The details dictionary before the uploader's link is made
    absolute. *)
Lemma details_filled element :
  NoDup (fst <$> TorrentProvider.item_selectors self) →
  foldl (fun props '(key, selector) =>
           if String.eqb key "files" || String.eqb key "trackers"
           then dict_set props key
                  (TorrentProvider.Many
                     (TorrentProvider.select ext element selector))
           else dict_set props key
                  (TorrentProvider.One
                     (TorrentProvider.select_one ext element selector)))
    [] (TorrentProvider.item_selectors self)
  = (fun '(key, selector) =>
       (key, stored_detail ext element key selector))
    <$> TorrentProvider.item_selectors self.
Proof.
  intros Hnodup.
  pose proof (foldl_dict_set (stored_detail ext element)
                (TorrentProvider.item_selectors self) [] Hnodup) as Hfill.
  simpl in Hfill. rewrite <- Hfill.
  apply foldl_pointwise. intros props [key selector].
  unfold stored_detail.
  by destruct (String.eqb key "files" || String.eqb key "trackers").
Qed.

(** X21.  [_get_torrent_details_data] gives one field for each
    configured details selector, under its key and in the configured
    order: every match for [files] and [trackers], the first match for
    any other key, the uploader's link ([uploader_url]) made
    absolute. *)
Theorem details_data_fields (element : Element) :
  NoDup (fst <$> TorrentProvider.item_selectors self) →
  fst <$> TorrentProvider._get_torrent_details_data ext self element
  = fst <$> TorrentProvider.item_selectors self
  ∧ ∀ key selector,
      (key, selector) ∈ TorrentProvider.item_selectors self →
      dict_get (TorrentProvider._get_torrent_details_data ext self element)
        key
      = Some (detail_field ext self element key selector).
Proof.
  intros Hnodup. unfold TorrentProvider._get_torrent_details_data.
  rewrite details_filled by done.
  set (props := (fun '(key, selector) =>
                   (key, stored_detail ext element key selector))
                <$> TorrentProvider.item_selectors self).
  assert (Hkeys : fst <$> props
                  = fst <$> TorrentProvider.item_selectors self)
    by apply filled_dict_keys.
  assert (Hget : ∀ key selector,
    (key, selector) ∈ TorrentProvider.item_selectors self →
    dict_get props key = Some (stored_detail ext element key selector)).
  { intros key selector Hin.
    by apply (filled_dict_get (stored_detail ext element)). }
  assert (Hother : ∀ key selector,
    key ≠ "uploader_url" →
    stored_detail ext element key selector
    = detail_field ext self element key selector).
  { intros key selector Hkey. unfold stored_detail, detail_field.
    destruct (String.eqb key "files" || String.eqb key "trackers");
      [done|].
    apply String.eqb_neq in Hkey. by rewrite Hkey. }
  assert (Huploader : ∀ selector,
    stored_detail ext element "uploader_url" selector
    = TorrentProvider.One
        (TorrentProvider.select_one ext element selector)) by done.
  destruct (TorrentProvider.truthy _ && _) eqn:Hrel.
  - assert (∃ v, dict_get props "uploader_url"
                 = Some (TorrentProvider.One v)) as [v Hv].
    { destruct (dict_get props "uploader_url") as [[v|vs]|];
        [by eauto|done|done]. }
    rewrite Hv in Hrel |- *. split.
    + rewrite dict_set_keys. unfold dict_contains. by rewrite Hv.
    + intros key selector Hin.
      destruct (decide (key = "uploader_url")) as [->|Hkey].
      * rewrite dict_get_set_eq.
        rewrite (Hget _ _ Hin), Huploader in Hv. injection Hv as <-.
        unfold detail_field, absolute. simpl. by rewrite Hrel.
      * rewrite dict_get_set_ne by done.
        rewrite (Hget _ _ Hin). f_equal. by apply Hother.
  - split; [done|]. intros key selector Hin. rewrite (Hget _ _ Hin).
    f_equal. destruct (decide (key = "uploader_url")) as [->|Hkey];
      [|by apply Hother].
    rewrite (Hget _ _ Hin), Huploader in Hrel.
    unfold detail_field, absolute. simpl. by rewrite Hrel.
Qed.

(** X25.  For a record with a details link, [fetch_details_data] makes
    one request, to the link joined to the provider's address when it
    does not start with [http], with the caller's timeout and without
    the provider's headers.  It returns the details dictionary of the
    page; a failure of the transport comes out as [Timeout] or
    [RequestError] and a page that does not parse as [ParseError], all
    of them errors of the provider. *)
Theorem details_are_fetched_once (torrent : Torrent) (tmo : option Q)
    (u : string) :
  info_url torrent = Some u → u ≠ "" →
  (TorrentProvider.fetch_details_data ext self torrent tmo).2
  = [TorrentProvider.Get (fetch_target ext self u) None tmo]
  ∧ match TorrentProvider.requests_get ext (fetch_target ext self u) None
            tmo with
    | Ok text =>
        match TorrentProvider.Scraper ext text with
        | Ok scraper =>
            (TorrentProvider.fetch_details_data ext self torrent tmo).1
            = Ok (TorrentProvider._get_torrent_details_data ext self
                    scraper)
        | Raise ValueError =>
            (TorrentProvider.fetch_details_data ext self torrent tmo).1
            = Raise ParseError
        | Raise e =>
            (TorrentProvider.fetch_details_data ext self torrent tmo).1
            = Raise e
        end
    | Raise RequestsTimeout =>
        (TorrentProvider.fetch_details_data ext self torrent tmo).1
        = Raise Timeout
    | Raise RequestsException =>
        (TorrentProvider.fetch_details_data ext self torrent tmo).1
        = Raise RequestError
    | Raise e =>
        (TorrentProvider.fetch_details_data ext self torrent tmo).1
        = Raise e
    end
  ∧ is_TorrentProviderError Timeout = true
  ∧ is_TorrentProviderError RequestError = true
  ∧ is_TorrentProviderError ParseError = true.
Proof.
  intros Hu Hne. unfold TorrentProvider.fetch_details_data.
  rewrite Hu. simpl.
  assert ((u =? "")%string = false) as -> by (by apply String.eqb_neq).
  simpl. fold (fetch_target ext self u).
  split; [done|]. split; [|done].
  destruct (TorrentProvider.requests_get ext (fetch_target ext self u)
              None tmo) as [text|e]; simpl.
  - destruct (TorrentProvider.Scraper ext text) as [scraper|e];
      [done|]. by destruct e.
  - by destruct e.
Qed.
End DetailFacts.

(** ** A search without limit *)

(** Replacing one element of a list changes one chunk of the
    concatenation of its indexed images. *)
Lemma concat_imap_insert {A B} (l : list A) : ∀ (f : nat → A → list B) i x y,
  l !! i = Some x →
  f i y ++ concat (imap f l) ≡ₚ f i x ++ concat (imap f (<[i := y]> l)).
Proof.
  induction l as [|a l IH]; intros f i x y Hi; [done|].
  destruct i as [|i]; simpl in *.
  - injection Hi as ->. by rewrite !(assoc_L (++)), (comm (++) (f 0%nat y)).
  - rewrite !(assoc_L (++)), (comm (++) (f (S i) y)),
      (comm (++) (f (S i) x)), <- !(assoc_L (++)).
    f_equiv. by apply (IH (f ∘ S)).
Qed.

Section UnlimitedFacts.
Context (w : Engine.world) (query : string) (limit : Z) (timeout : Q)
        (n_threads : Z).
Context (Hlimit : limit ≤ 0).

Abbreviation due :=
  (fun pl => Engine.queue pl
             ++ concat (imap (owed w query limit timeout)
                          (Engine.tasks pl))).

Lemma never_full q : Engine.full limit q = false.
Proof.
  unfold Engine.full. assert ((0 <? limit) = false) as ->; [|done].
  apply Z.ltb_ge. lia.
Qed.

Lemma consume_unlimited rest fin : ∀ q,
  (Engine.consume limit rest fin q).2 = q ++ rest.
Proof.
  induction rest as [|t rest IH]; intros q; simpl.
  - by rewrite app_nil_r.
  - unfold Engine.put_nowait. rewrite never_full, IH.
    by rewrite <- (assoc_L (++)).
Qed.

Lemma task_start_owed p i :
  owed w query limit timeout i
    (Engine.task_start p query limit timeout (Engine.elapsed w i)).1
  = asked w query limit timeout i p.
Proof.
  unfold Engine.task_start, asked. by destruct (Qle_bool _ _).
Qed.

(** Moving a task on moves records from what it owes to the sink. *)
Lemma due_insert pl i old new q :
  Engine.tasks pl !! i = Some old →
  q ++ owed w query limit timeout i new
  ≡ₚ Engine.queue pl ++ owed w query limit timeout i old →
  q ++ concat (imap (owed w query limit timeout)
                 (<[i := new]> (Engine.tasks pl)))
  ≡ₚ due pl.
Proof.
  intros Hi Hmove.
  pose proof (concat_imap_insert (Engine.tasks pl)
                (owed w query limit timeout) i old new Hi) as Hchunk.
  apply (Permutation_app_inv_l (owed w query limit timeout i old)).
  rewrite (assoc_L (++)), (comm (++) _ q), <- (assoc_L (++)), <- Hchunk.
  rewrite !(assoc_L (++)). f_equiv.
  by rewrite Hmove, (comm (++) (owed w query limit timeout i old)).
Qed.

Lemma step_due pl i :
  due (Engine.step w query limit timeout n_threads pl i) ≡ₚ due pl.
Proof.
  unfold Engine.step.
  destruct (Engine.tasks pl !! i) as [[p|rest fin|res]|] eqn:Hi;
    try done.
  - destruct (Engine.may_start _ _ _); [|done].
    pose proof (task_start_owed p i) as Hstart.
    destruct (Engine.task_start p _ _ _ _) as [ts evs]. simpl in *.
    apply (due_insert pl i (Engine.Pending p)); [done|].
    by rewrite Hstart.
  - unfold Engine.task_resume. destruct rest as [|t rest]; simpl.
    + by apply (due_insert pl i (Engine.Running [] fin)).
    + unfold Engine.put_nowait. rewrite never_full. simpl.
      apply (due_insert pl i (Engine.Running (t :: rest) fin)); [done|].
      simpl. by rewrite <- (assoc_L (++)).
Qed.

Lemma finish_due pl i :
  due (Engine.finish w query limit timeout pl i) ≡ₚ due pl.
Proof.
  unfold Engine.finish.
  destruct (Engine.tasks pl !! i) as [[p|rest fin|res]|] eqn:Hi;
    try done.
  - pose proof (task_start_owed p i) as Hstart.
    destruct (Engine.task_start p _ _ _ _) as [[p'|rest fin|res] evs];
      simpl in *.
    + apply (due_insert pl i (Engine.Pending p)); [done|].
      simpl. by rewrite Hstart.
    + pose proof (consume_unlimited rest fin (Engine.queue pl)) as Hc.
      destruct (Engine.consume _ _ _ _) as [res q]. simpl in *.
      subst q.
      apply (due_insert pl i (Engine.Pending p)); [done|].
      simpl. by rewrite app_nil_r, Hstart.
    + apply (due_insert pl i (Engine.Pending p)); [done|].
      simpl. by rewrite Hstart.
  - pose proof (consume_unlimited rest fin (Engine.queue pl)) as Hc.
    destruct (Engine.consume _ _ _ _) as [res q]. simpl in *. subst q.
    apply (due_insert pl i (Engine.Running rest fin)); [done|].
    simpl. by rewrite app_nil_r.
Qed.
End UnlimitedFacts.

Section FinishFacts.
Context (w : Engine.world) (query : string) (limit : Z) (timeout : Q).

Lemma finish_at pl i ts :
  Engine.tasks pl !! i = Some ts →
  ∃ res, Engine.tasks (Engine.finish w query limit timeout pl i)
         = <[i := Engine.Finished res]> (Engine.tasks pl).
Proof.
  intros Hi. unfold Engine.finish. rewrite Hi.
  destruct ts as [p|rest fin|res].
  - destruct (Engine.task_start p _ _ _ _) as [[p'|rest fin|res] evs]
      eqn:Hstart; simpl.
    + unfold Engine.task_start in Hstart.
      by destruct (Qle_bool _ _).
    + destruct (Engine.consume _ _ _ _). simpl. eauto.
    + eauto.
  - destruct (Engine.consume _ _ _ _). simpl. eauto.
  - exists res. symmetry. by apply list_insert_id.
Qed.

Lemma finish_none pl i :
  Engine.tasks pl !! i = None →
  Engine.finish w query limit timeout pl i = pl.
Proof. intros Hi. unfold Engine.finish. by rewrite Hi. Qed.

(** Finishing the tasks at the places [places] leaves every task that
    was finished, or stands at one of these places, finished. *)
Lemma foldl_finish places : ∀ pl,
  (∀ j ts, Engine.tasks pl !! j = Some ts → j ∈ places ∨ is_finished ts) →
  Forall is_finished
    (Engine.tasks (foldl (Engine.finish w query limit timeout) pl places)).
Proof.
  induction places as [|i places IH]; intros pl Hall; simpl.
  - apply Forall_lookup. intros j ts Hj.
    by destruct (Hall j ts Hj) as [?%elem_of_nil|?].
  - apply IH. intros j ts Hj.
    destruct (Engine.tasks pl !! i) as [old|] eqn:Hi.
    + destruct (finish_at pl i old Hi) as [res Hfin].
      rewrite Hfin in Hj.
      destruct (decide (i = j)) as [->|Hne].
      * rewrite list_lookup_insert_eq in Hj
          by (by eapply lookup_lt_Some).
        injection Hj as <-. by right.
      * rewrite list_lookup_insert_ne in Hj by done.
        destruct (Hall j ts Hj) as [[?|?]%elem_of_cons|?];
          [congruence|by left|by right].
    + rewrite finish_none in Hj by done.
      destruct (Hall j ts Hj) as [[?|?]%elem_of_cons|?];
        [congruence|by left|by right].
Qed.

Lemma step_length n_threads pl i :
  length (Engine.tasks (Engine.step w query limit timeout n_threads pl i))
  = length (Engine.tasks pl).
Proof.
  unfold Engine.step.
  destruct (Engine.tasks pl !! i) as [[p|rest fin|res]|]; try done.
  - destruct (Engine.may_start _ _ _); [|done].
    destruct (Engine.task_start _ _ _ _ _). simpl. apply length_insert.
  - destruct (Engine.task_resume _ _ _ _). simpl. apply length_insert.
Qed.

Lemma run_pool_finished n_threads ps :
  Forall is_finished
    (Engine.tasks (Engine.run_pool w query limit timeout n_threads ps)).
Proof.
  unfold Engine.run_pool. apply foldl_finish. intros j ts Hj. left.
  apply elem_of_seq. split; [lia|]. simpl.
  apply lookup_lt_Some in Hj.
  assert (Hlen : ∀ sched pl,
    length (Engine.tasks
              (foldl (Engine.step w query limit timeout n_threads) pl
                 sched))
    = length (Engine.tasks pl)).
  { intros sched. induction sched as [|i sched IH]; intros pl; simpl;
      [done|]. by rewrite IH, step_length. }
  rewrite Hlen in Hj. simpl in Hj. by rewrite length_fmap in Hj.
Qed.

Lemma finished_owe_nothing tss :
  Forall is_finished tss →
  concat (imap (owed w query limit timeout) tss) = [].
Proof.
  intros Hfin.
  assert (Hgen : ∀ f : nat → Engine.task_state → list Torrent,
    (∀ i ts, is_finished ts → f i ts = []) → concat (imap f tss) = []).
  { induction Hfin as [|ts tss Hts _ IH]; intros f Hf; [done|].
    rewrite imap_cons. simpl. rewrite (Hf 0%nat ts Hts). simpl.
    apply IH. intros i ts'. apply Hf. }
  apply Hgen. by intros i [].
Qed.
End FinishFacts.

Lemma run_pool_unlimited w query limit timeout n_threads ps :
  limit ≤ 0 →
  Engine.queue (Engine.run_pool w query limit timeout n_threads ps)
  ≡ₚ concat (imap (asked w query limit timeout) ps).
Proof.
  intros Hlimit.
  pose proof (run_pool_finished w query limit timeout n_threads ps)
    as Hfin.
  apply (finished_owe_nothing w query limit timeout) in Hfin.
  rewrite <- (app_nil_r (Engine.queue _)), <- Hfin.
  apply (run_pool_invariant w query limit timeout n_threads
           (fun pl => Engine.queue pl
                      ++ concat (imap (owed w query limit timeout)
                                   (Engine.tasks pl))
                      ≡ₚ concat (imap (asked w query limit timeout) ps))).
  - simpl. by rewrite imap_fmap.
  - intros pl i Hpl. by rewrite step_due.
  - intros pl i Hpl. by rewrite finish_due.
Qed.

(** The record kept for a title is at least as good as any record of
    the input with that title. *)
Lemma filter_covers items r :
  r ∈ items →
  ∃ r', r' ∈ foldl merge_item [] items
        ∧ title r' = title r ∧ seeds r ≤ seeds r'.
Proof.
  intros Hr.
  assert (title r ∈ title <$> foldl merge_item [] items) as Hin.
  { rewrite filter_titles. apply elem_of_first_occurrences.
    apply list_elem_of_fmap. by exists r. }
  apply list_elem_of_fmap in Hin as (r' & Ht & Hr').
  exists r'. split_and!; [done|done|].
  destruct (filter_best items r' Hr') as [_ Hbest]. by apply Hbest.
Qed.


(** ** Errors and deadlines at the task boundary *)


(** What is in the sink stays in the sink: a task only appends to it. *)
Lemma consume_keeps_sink limit rest fin : ∀ q,
  q `prefix_of` (Engine.consume limit rest fin q).2.
Proof.
  induction rest as [|t rest IH]; intros q; simpl; [done|].
  unfold Engine.put_nowait. destruct (Engine.full limit q); [done|].
  etrans; [|apply IH]. by apply prefix_app_r.
Qed.

Lemma step_keeps_sink w query limit timeout n_threads pl i :
  Engine.queue pl
  `prefix_of` Engine.queue
                (Engine.step w query limit timeout n_threads pl i).
Proof.
  unfold Engine.step.
  destruct (Engine.tasks pl !! i) as [[p|rest fin|res]|]; try done.
  - destruct (Engine.may_start _ _ _); [|done].
    by destruct (Engine.task_start _ _ _ _ _).
  - unfold Engine.task_resume. destruct rest as [|t rest]; [done|].
    unfold Engine.put_nowait. destruct (Engine.full limit _); [done|].
    simpl. by apply prefix_app_r.
Qed.

Lemma finish_keeps_sink w query limit timeout pl i :
  Engine.queue pl
  `prefix_of` Engine.queue (Engine.finish w query limit timeout pl i).
Proof.
  unfold Engine.finish.
  destruct (Engine.tasks pl !! i) as [[p|rest fin|res]|]; try done.
  - destruct (Engine.task_start _ _ _ _ _) as [[p'|rest fin|res] evs];
      try done.
    pose proof (consume_keeps_sink limit rest fin (Engine.queue pl)) as Hq.
    by destruct (Engine.consume _ _ _ _).
  - pose proof (consume_keeps_sink limit rest fin (Engine.queue pl)) as Hq.
    by destruct (Engine.consume _ _ _ _).
Qed.

(** A task that finds the deadline passed, or a timeout of 0.01 s or
    less on a clock that does not run backwards, ends before it calls
    the provider. *)
Lemma task_ends_at_once p query limit timeout e :
  (timeout - e <= 0)%Q ∨ ((timeout <= 1 # 100)%Q ∧ (0 <= e)%Q) →
  Engine.task_start p query limit timeout e
  = (Engine.Finished None, [Engine.EvTask (name p)]).
Proof.
  intros Hspent. unfold Engine.task_start.
  assert (Qle_bool (timeout - e) (1 # 100) = true) as ->; [|done].
  destruct Hspent as [Hle|[Ht He]]; [|by apply budget_spent].
  apply Qle_bool_iff. lra.
Qed.

Section LoopDeadline.
Context {Selector Element : Type}.
Context (ext : TorrentProvider.externals Selector Element)
        (self : TorrentProvider.config Selector).
Context (limit : option Z) (timeout : option Q) (start_time : Q).

(** A request that times out ends the run with [Timeout], after that
    request and nothing else. *)
Lemma loop_request_times_out fuel path remaining tick :
  TorrentProvider.loop_guard path limit remaining = Ok true →
  TorrentProvider.requests_get ext
    (fetch_target ext self (default "" path))
    (TorrentProvider.headers self) (budget ext timeout start_time tick)
  = Raise RequestsTimeout →
  TorrentProvider.search_loop ext self limit timeout start_time (S fuel)
    path remaining tick
  = ([TorrentProvider.Get (fetch_target ext self (default "" path))
        (TorrentProvider.headers self)
        (budget ext timeout start_time tick)],
     TorrentProvider.Raised Timeout).
Proof.
  intros Hguard Htimeout. rewrite search_loop_S, Hguard.
  unfold TorrentProvider.fetch. fold (fetch_target ext self (default "" path)).
  by rewrite Htimeout.
Qed.
End LoopDeadline.


(** ** The further properties at work on the small world *)

Lemma sample_registered : registered_by_name Sample.registry.
Proof.
  split.
  - by apply (bool_decide_unpack _).
  - intros k l Hin. simpl in Hin.
    apply elem_of_cons in Hin as [[= -> ->]|Hin];
      [by exists Sample.flaky|].
    apply list_elem_of_singleton in Hin as [= -> ->].
    by exists Sample.steady.
Defined.

Lemma sample_selection_limited : selection_is_limited Sample.ext.
Proof.
  intros [items next|fields] selector r Hr; simpl; [|lia].
  apply Z.ltb_lt in Hr as Hpos. rewrite Hpos.
  rewrite length_fmap, length_take. lia.
Defined.

Lemma add_then_get_witness :
  Manager.get (Manager._add Sample.registry 1) (name Sample.steady)
  = Some 1%nat
  ∧ ∀ k, k ≠ name Sample.steady →
      Manager.get (Manager._add Sample.registry 1) k
      = Manager.get Sample.registry k.
Proof.
  apply (add_then_get Sample.registry 1 Sample.steady). reflexivity.
Defined.

Lemma add_keeps_insertion_order_witness :
  (Manager.get Sample.registry (name Sample.steady) = None →
   Manager.get_all (Manager._add Sample.registry 1) None
   = Manager.get_all Sample.registry None ++ [1%nat])
  ∧ (Manager.get Sample.registry (name Sample.steady) ≠ None →
     fst <$> Manager.providers (Manager._add Sample.registry 1)
     = fst <$> Manager.providers Sample.registry).
Proof.
  apply (add_keeps_insertion_order Sample.registry 1 Sample.steady).
  reflexivity.
Defined.

Lemma remove_then_get_witness :
  Manager.get (Manager._remove Sample.registry (Manager.Obj 0)) "flaky"
  = None
  ∧ ∀ k', k' ≠ "flaky" →
      Manager.get (Manager._remove Sample.registry (Manager.Obj 0)) k'
      = Manager.get Sample.registry k'.
Proof.
  apply (remove_then_get Sample.registry (Manager.Obj 0) "flaky").
  - exact sample_registered.
  - reflexivity.
Defined.

Lemma enable_all_enables_every_provider_witness :
  Manager.get_all (Manager.enable_all Sample.registry) (Some true)
  = Manager.get_all Sample.registry None
  ∧ Manager.get_all (Manager.enable_all Sample.registry) (Some false) = [].
Proof.
  apply (enable_all_enables_every_provider Sample.registry).
  exact sample_registered.
Defined.

Lemma remove_all_empties_the_registry_witness :
  Manager.remove_all Sample.registry
  = Manager.mk (Manager.heap Sample.registry) [].
Proof.
  apply (remove_all_empties_the_registry Sample.registry).
  exact sample_registered.
Defined.

Lemma registry_stays_registered_by_name_witness :
  (∀ l, registered_by_name (Manager._add Sample.registry l))
  ∧ (∀ args, registered_by_name (Manager.remove Sample.registry args)
             ∧ registered_by_name (Manager.disable Sample.registry args)
             ∧ registered_by_name (Manager.enable Sample.registry args))
  ∧ registered_by_name (Manager.remove_all Sample.registry)
  ∧ registered_by_name (Manager.disable_all Sample.registry)
  ∧ registered_by_name (Manager.enable_all Sample.registry).
Proof.
  apply (registry_stays_registered_by_name Sample.registry).
  exact sample_registered.
Defined.

Lemma search_result_is_ranked_and_distinct_witness :
  StronglySorted (fun a b => seeds b ≤ seeds a) Demo.unlimited_out
  ∧ NoDup (title <$> Demo.unlimited_out).
Proof.
  apply (search_result_is_ranked_and_distinct Sample.registry Sample.w
           "doom" 0 30 None Demo.unlimited_out Demo.unlimited_log).
  vm_compute. reflexivity.
Defined.

Lemma search_returns_yielded_records_witness :
  Forall (fun r =>
            ∃ p tmo, p ∈ Engine.get_providers Sample.registry (Some true)
                     ∧ enabled p = true
                     ∧ r ∈ yields (search p "doom" 0 tmo))
    Demo.unlimited_out.
Proof.
  apply Forall_forall.
  apply (search_returns_yielded_records Sample.registry Sample.w
           "doom" 0 30 None Demo.unlimited_out Demo.unlimited_log).
  vm_compute. reflexivity.
Defined.

Lemma pool_has_a_worker_witness :
  Forall (pool_size_ok None
            (Z.of_nat (length (Engine.get_providers Sample.registry
                                 (Some true)))))
    (Engine.search Sample.registry Sample.w "doom" 0 30 None).2.
Proof.
  apply (pool_has_a_worker Sample.registry Sample.w "doom" 0 30 None).
  simpl. lia.
Defined.

Lemma spent_timeout_searches_nothing_witness :
  (Engine.search Sample.registry Sample.w "doom" 0 (1 # 100) None).1
  = Ok []
  ∧ Forall (fun ev => is_provider_search ev = false)
      (Engine.search Sample.registry Sample.w "doom" 0 (1 # 100) None).2.
Proof.
  apply (spent_timeout_searches_nothing Sample.registry Sample.w "doom" 0
           (1 # 100) None).
  - apply Qle_refl.
  - intros i. simpl. apply Qle_refl.
Defined.


Lemma provider_yields_at_most_limit_witness :
  Z.of_nat (length (yielded
    (TorrentProvider.search_loop Sample.ext Sample.tracker (Some 1) None
       0%Q 5 (Some "/search/doom") (Some 1) 0).1))
  ≤ Z.max 0 1.
Proof.
  apply (provider_yields_at_most_limit Sample.ext Sample.tracker 1 None
           0%Q 5 (Some "/search/doom") 1 0).
  - lia.
  - exact sample_selection_limited.
Defined.

Lemma torrent_data_fields_witness :
  fst <$> TorrentProvider._get_torrent_data Sample.ext Sample.tracker
            (Sample.Item [("title", Some "Doom Patrol S02");
                          ("info_url", Some "/torrent/3")])
  = ["provider"; "title"; "link"; "info_url"]
  ∧ (∀ key selector,
       (key, selector) ∈ TorrentProvider.list_item_selectors Sample.tracker →
       dict_get (TorrentProvider._get_torrent_data Sample.ext Sample.tracker
                   (Sample.Item [("title", Some "Doom Patrol S02");
                                 ("info_url", Some "/torrent/3")]))
         key
       = Some (TorrentProvider.Selected
                 (if String.eqb key "info_url"
                  then absolute Sample.ext Sample.tracker
                         (TorrentProvider.select_one Sample.ext
                            (Sample.Item
                               [("title", Some "Doom Patrol S02");
                                ("info_url", Some "/torrent/3")])
                            selector)
                  else TorrentProvider.select_one Sample.ext
                         (Sample.Item
                            [("title", Some "Doom Patrol S02");
                             ("info_url", Some "/torrent/3")])
                         selector)))
  ∧ ("provider" ∉ fst <$> TorrentProvider.list_item_selectors Sample.tracker →
     dict_get (TorrentProvider._get_torrent_data Sample.ext Sample.tracker
                 (Sample.Item [("title", Some "Doom Patrol S02");
                               ("info_url", Some "/torrent/3")]))
       "provider"
     = Some (TorrentProvider.Self "tracker")).
Proof.
  apply (torrent_data_fields Sample.ext Sample.tracker).
  by apply (bool_decide_unpack _).
Defined.

Lemma details_data_fields_witness :
  fst <$> TorrentProvider._get_torrent_details_data Sample.ext
            Demo.detailed Demo.second_page
  = fst <$> TorrentProvider.item_selectors Demo.detailed
  ∧ ∀ key selector,
      (key, selector) ∈ TorrentProvider.item_selectors Demo.detailed →
      dict_get (TorrentProvider._get_torrent_details_data Sample.ext
                  Demo.detailed Demo.second_page) key
      = Some (detail_field Sample.ext Demo.detailed Demo.second_page key
                selector).
Proof.
  apply (details_data_fields Sample.ext Demo.detailed Demo.second_page).
  by apply (bool_decide_unpack _).
Defined.

Lemma loop_ends_after_last_page_witness :
  TorrentProvider.search_loop Sample.ext Sample.tracker (Some 0) None 0%Q
    5 (Some "/page/2") (Some 0) 0
  = ([TorrentProvider.Get "http://tracker.example/page/2" None None;
      TorrentProvider.Yield Demo.second_record],
     TorrentProvider.Returned).
Proof.
  apply (loop_ends_after_last_page Sample.ext Sample.tracker (Some 0) None
           0%Q 3 (Some "/page/2") 0 0%nat "second" Demo.second_page
           [TorrentProvider.Yield Demo.second_record]);
    try reflexivity.
  left. reflexivity.
Defined.

Lemma details_are_fetched_once_witness :
  (TorrentProvider.fetch_details_data Sample.ext Demo.detailed Demo.linked
     None).2
  = [TorrentProvider.Get
       (fetch_target Sample.ext Demo.detailed "/torrent/3") None None].
Proof.
  apply (details_are_fetched_once Sample.ext Demo.detailed Demo.linked None
           "/torrent/3").
  - reflexivity.
  - discriminate.
Defined.
